(** * llmhub: the fan-out / fan-in query orchestrator of [main.go]

    A shallow embedding of [main.go] and the properties of its
    orchestration logic.

    - Go maps ([map[string]string], [map[string]error], [map[string]bool])
      are stdpp [gmap]s keyed by [string]; [len m] is [size m].
    - A value of the [Provider] interface is its method table.
    - The goroutines of [queryProviders] are a step machine driven by an
      explicit schedule, so that every interleaving is covered.
    - The iteration order of [range] over a map, which Go leaves
      unspecified, is an explicit parameter ranging over all orders.
    - Calls of [Provider.Query] are recorded in a trace of events.  A
      call returns: [Query] is a function of the context, the prompt and
      the extra parameters, as the deadline contract of a provider has it.
    - The structured logger is not modelled, except that [logger.Fatal]
      ends the run with its message. *)

From Stdlib Require Import ZArith Lia.
From stdpp Require Import base gmap strings list fin_maps.


(** ** Go preliminaries *)

(** A Go [error] value, identified with its message. *)
Definition error : Type := string.

(** The result of a Go function returning [(string, error)]:
    [inl answer] when [err == nil], [inr err] otherwise. *)
Definition result : Type := string + error.

Definition succeeded (r : result) : bool :=
  match r with inl _ => true | inr _ => false end.

(** [context.Context]: what a callee can observe of it is its deadline
    (in nanoseconds since the epoch). *)
Record Context := { deadline : Z }.

(** [context.WithTimeout(context.Background(), d)] at time [now]. *)
Definition WithTimeout (now d : Z) : Context := {| deadline := (now + d)%Z |}.

Definition Second : Z := 1000000000.

(** The line feed of the Go literal ["\n"]. *)
Definition nl : string := String (Ascii.ascii_of_nat 10) "".

(** ** The [Provider] interface *)

Record Provider := {
  Name : string;
  Enabled : bool;
  Query : Context → string → option (gmap string string) → result
}.

Record OpenAIProvider := { enabled : bool; apiKey : string }.

(** The method set of [*OpenAIProvider]. *)
Definition OpenAI (o : OpenAIProvider) : Provider :=
  {| Name := "openai";
     Enabled := enabled o;
     Query := λ ctx prompt extra, inl ("OpenAI answer to: " +:+ prompt) |}.

Record Config := { EnabledProviders : gmap string bool; Debug : bool }.

(** One call of some provider's [Query]: who was asked, and what. *)
Record Event := QueryEv { ev_provider : string; ev_prompt : string }.

Global Instance Event_eq_dec : EqDecision Event.
Proof. solve_decision. Defined.

(** ** Ranging over a map

    [for k, v := range m] visits every entry of [m] once, in an order Go
    does not specify.  The order is chosen by [seed]: every seed gives a
    permutation of the entries, and every permutation is given by some
    seed (lemmas [range_Permutation] and [range_any_order] below). *)
Definition range {V} (seed : nat) (m : gmap string V) : list (string * V) :=
  let entries := map_to_list m in
  let orders := permutations entries in
  default entries (orders !! (seed `mod` length orders)).

(** ** Credentials *)

Section Keys.
(** [strings.ToUpper] of the Go standard library. *)
Variable ToUpper : string → string.
(** The process environment; [os.Getenv k] is [""] when [k] is unset. *)
Variable environ : gmap string string.

Definition Getenv (key : string) : string := default "" (environ !! key).

Definition toEnvKey (name : string) : string := ToUpper name.

Definition loadAPIKeys (providerNames : list string) : gmap string string :=
  foldl (λ apiKeys name,
           let envKey := toEnvKey name +:+ "_API_KEY" in
           let apiKey := Getenv envKey in
           <[name := apiKey]> apiKeys)
        ∅ providerNames.
End Keys.

(** ** The provider registry *)

(** Indexing a Go map yields the zero value for an absent key. *)
Definition allProviders (cfg : Config) (apiKeys : gmap string string) : list Provider :=
  [ OpenAI {| enabled := default false (EnabledProviders cfg !! "openai");
              apiKey := default "" (apiKeys !! "openai") |} ].

Definition getEnabledProviders (cfg : Config) (apiKeys : gmap string string) : list Provider :=
  foldl (λ enabled p, if Enabled p then enabled ++ [p] else enabled) [] (allProviders cfg apiKeys).

(** ** Selecting the summarizer *)

Fixpoint findSummarizerProvider (providers : list Provider) (name : string) : option Provider :=
  match providers with
  | [] => None
  | p :: rest =>
      if bool_decide (Name p = name) && Enabled p then Some p
      else findSummarizerProvider rest name
  end.

(** ** Fan-out: [queryProviders]

    One goroutine per provider.  A goroutine first calls [Query] (outside
    the mutex), then takes the mutex and records the outcome under the
    provider's name, then signals the wait group.  [step i] lets
    goroutine [i] take its next action; the mutex makes the recording one
    atomic action.  A schedule is the list of goroutines in the order in
    which they act. *)

(** A schedule in which each of [n] goroutines acts at least twice: these
    are the schedules under which the barrier opens (lemma
    [queryProviders_returns] below). *)
Definition completes (n : nat) (schedule : list nat) : bool :=
  forallb (λ i, bool_decide (2 ≤ length (filter (λ j, j = i) schedule)))
          (seq 0 n).

Inductive goroutine :=
  | Spawned
  | Answered (outcome : result)
  | Finished.

Record fanout := {
  goroutines : list goroutine;
  results : gmap string string;
  errs : gmap string error;
  calls : list Event
}.

Definition is_finished (g : goroutine) : bool :=
  match g with Finished => true | _ => false end.

Section FanOut.
Variable ctx : Context.
Variable providers : list Provider.
Variable prompt : string.

(** After the spawning loop: empty maps, one goroutine per provider. *)
Definition spawn_all : fanout :=
  {| goroutines := replicate (length providers) Spawned;
     results := ∅; errs := ∅; calls := [] |}.

Definition step (st : fanout) (i : nat) : fanout :=
  match providers !! i, goroutines st !! i with
  | Some prov, Some Spawned =>
      {| goroutines := <[i := Answered (Query prov ctx prompt None)]> (goroutines st);
         results := results st;
         errs := errs st;
         calls := calls st ++ [QueryEv (Name prov) prompt] |}
  | Some prov, Some (Answered (inr err)) =>
      {| goroutines := <[i := Finished]> (goroutines st);
         results := results st;
         errs := <[Name prov := err]> (errs st);
         calls := calls st |}
  | Some prov, Some (Answered (inl answer)) =>
      {| goroutines := <[i := Finished]> (goroutines st);
         results := <[Name prov := answer]> (results st);
         errs := errs st;
         calls := calls st |}
  | _, _ => st
  end.

Definition run (schedule : list nat) : fanout := foldl step spawn_all schedule.

(** [wg.Wait()] returns once every goroutine has called [wg.Done()]. *)
Definition joined (st : fanout) : bool := forallb is_finished (goroutines st).

(** [None]: under this schedule the caller is still blocked in
    [wg.Wait()].  Otherwise the two maps, and the [Query] calls made. *)
Definition queryProviders (schedule : list nat)
  : option (gmap string string * gmap string error * list Event) :=
  let st := run schedule in
  if joined st then Some (results st, errs st, calls st) else None.


(** The schedule in which the goroutines run one after the other. *)
Definition sequential : list nat :=
  flat_map (λ i, [i; i]) (seq 0 (length providers)).
End FanOut.

(** ** Summarization *)

Definition header : string :=
  "Summarize and provide a verdict for these answers:" +:+ nl.

(** [fmt.Sprintf("[%s]: %s\n", name, answer)] *)
Definition entry (e : string * string) : string :=
  "[" +:+ e.1 +:+ "]: " +:+ e.2 +:+ nl.

(** The prompt built by the loop of [summarizeAnswers], visiting the
    answers in the given order. *)
Definition synthesize (visited : list (string * string)) : string :=
  foldl (λ prompt e, prompt +:+ entry e) header visited.

Definition summarizeAnswers (ctx : Context) (provider : Provider)
    (answers : gmap string string) (seed : nat) : result * list Event :=
  let prompt := synthesize (range seed answers) in
  (Query provider ctx prompt None, [QueryEv (Name provider) prompt]).

(** ** The orchestrator: [main] *)

(** Command-line flags after [flag.Parse()]. *)
Record Flags := {
  flag_prompt : string;
  flag_summarizer : string;
  flag_config : string;
  flag_env : string;
  flag_debug : bool
}.

Definition default_flags : Flags :=
  {| flag_prompt := ""; flag_summarizer := "openai";
     flag_config := "config.json"; flag_env := ".env"; flag_debug := false |}.

(** What the run reads from outside the process. *)
Record World := {
  (** [loggerCfg.Build()] under the given debug level *)
  logger_Build : bool → option error;
  (** opening and decoding the JSON file at a path *)
  decode_config : string → Config + error;
  (** [godotenv.Load(path)]: the process environment once the file is
      loaded, or the error *)
  godotenv_Load : string → gmap string string + error;
  (** the clock when the deadline is set *)
  now : Z
}.

(** What Go leaves open in one run. *)
Record Choices := {
  names_seed : nat;       (* order of [range cfg.EnabledProviders] *)
  schedule : list nat;    (* interleaving of the goroutines *)
  answers_seed : nat      (* order of [range answers] *)
}.

(** How a run ends: exit status 1 for the first two, 0 for the last. *)
Inductive Outcome :=
  | LoggerSetupFailed (err : error)
  | Fatal (msg : string)
  | Printed (stdout : list string).

Definition setupLogger (w : World) (debug : bool) : unit + error :=
  match logger_Build w debug with
  | None => inl tt
  | Some err => inr err
  end.

Definition loadConfig (w : World) (path : string) : Config + error :=
  decode_config w path.

(** [main] from the check of [len(results)] to its end. *)
Definition main_after_fanout (ctx : Context) (enabledProviders : list Provider)
    (summarizer : string) (seed : nat)
    (results : gmap string string) : Outcome * list Event :=
  if bool_decide (size results = 0) then
    (Fatal "No providers returned an answer", [])
  else
    match findSummarizerProvider enabledProviders summarizer with
    | None => (Fatal "Summarizer provider not found or not enabled", [])
    | Some summarizerProvider =>
        match summarizeAnswers ctx summarizerProvider results seed with
        | (inr err, called) => (Fatal "Summarizer failed", called)
        | (inl summary, called) =>
            (Printed ["----- Final Verdict -----"; summary], called)
        end
    end.

(** [main] from the call of [queryProviders] to its end; [None] while the
    run is blocked at the join barrier. *)
Definition main_fanout (ctx : Context) (enabledProviders : list Provider)
    (prompt summarizer : string) (ch : Choices) : option (Outcome * list Event) :=
  match queryProviders ctx enabledProviders prompt (schedule ch) with
  | None => None
  | Some (results, errs, called) =>
      let '(outcome, called') :=
        main_after_fanout ctx enabledProviders summarizer (answers_seed ch) results in
      Some (outcome, called ++ called')
  end.

Section Main.
Variable ToUpper : string → string.

Definition main (w : World) (f : Flags) (ch : Choices) : option (Outcome * list Event) :=
  match setupLogger w (flag_debug f) with
  | inr err => Some (LoggerSetupFailed err, [])
  | inl _ =>
  if bool_decide (flag_prompt f = "") then Some (Fatal "Prompt is required", []) else
  match loadConfig w (flag_config f) with
  | inr err => Some (Fatal "Failed to load config", [])
  | inl cfg =>
  let cfg := {| EnabledProviders := EnabledProviders cfg; Debug := flag_debug f |} in
  match godotenv_Load w (flag_env f) with
  | inr err => Some (Fatal "Failed to load .env file", [])
  | inl environ =>
  let providerNames := (range (names_seed ch) (EnabledProviders cfg)).*1 in
  let apiKeys := loadAPIKeys ToUpper environ providerNames in
  let ctx := WithTimeout (now w) (60 * Second) in
  let enabledProviders := getEnabledProviders cfg apiKeys in
  if bool_decide (length enabledProviders = 0) then
    Some (Fatal "No enabled LLM providers", [])
  else
    main_fanout ctx enabledProviders (flag_prompt f) (flag_summarizer f) ch
  end end end.
End Main.

(** [strings.ToUpper] on ASCII text, where it maps [a-z] to [A-Z] and
    leaves every other byte alone. *)
Definition upper_ascii (c : Ascii.ascii) : Ascii.ascii :=
  let n := Ascii.nat_of_ascii c in
  if (97 <=? n) && (n <=? 122) then Ascii.ascii_of_nat (n - 32) else c.

Fixpoint ToUpperASCII (s : string) : string :=
  match s with
  | EmptyString => EmptyString
  | String c s' => String (upper_ascii c) (ToUpperASCII s')
  end.

(** ** Sample providers and runs *)

Definition always (name : string) (r : result) : Provider :=
  {| Name := name; Enabled := true; Query := λ _ _ _, r |}.

Definition ctx0 : Context := WithTimeout 0 (60 * Second).

Definition sampleABC : list Provider :=
  [always "A" (inl "ans-A"); always "B" (inr "timeout"); always "C" (inl "ans-C")].

Definition sample_failing : list Provider :=
  [always "A" (inr "refused"); always "B" (inr "timeout")].

(** A provider whose answer depends on the deadline it is given. *)
Definition dated (name : string) : Provider :=
  {| Name := name; Enabled := true;
     Query := λ ctx _ _,
       if (deadline ctx <? 100 * Second)%Z then inl "early" else inl "late" |}.

Definition cfg_openai : Config :=
  {| EnabledProviders := {["openai" := true]}; Debug := false |}.

(** Logger, configuration and [.env] file all load; the environment has
    no variable at all, so no [OPENAI_API_KEY]. *)
Definition world_no_key : World :=
  {| logger_Build := λ _, None;
     decode_config := λ _, inl cfg_openai;
     godotenv_Load := λ _, inl ∅;
     now := 0 |}.

(** [-prompt hi], every other flag at its default. *)
Definition flags_hi : Flags :=
  {| flag_prompt := "hi";
     flag_summarizer := flag_summarizer default_flags;
     flag_config := flag_config default_flags;
     flag_env := flag_env default_flags;
     flag_debug := flag_debug default_flags |}.

Definition choices0 : Choices :=
  {| names_seed := 0; schedule := [0; 0]; answers_seed := 0 |}.

(** A prompt that already is the text the summarizer is to be sent when
    the one provider ["A"] answers ["x"]. *)
Definition looped_prompt : string := header +:+ entry ("A", "x").

(** ** Vocabulary of the properties *)

Definition progress (g : goroutine) : nat :=
  match g with Spawned => 0 | Answered _ => 1 | Finished => 2 end.

(** The call of [Query] that fan-out makes on a provider. *)
Definition query_event (prompt : string) (p : Provider) : Event :=
  QueryEv (Name p) prompt.

(** The entries fan-out is to record: the answers of the providers that
    succeed, and the errors of those that fail, under their names. *)
Definition successes (ctx : Context) (prompt : string) (providers : list Provider)
  : list (string * string) :=
  omap (λ p, match Query p ctx prompt None with
             | inl answer => Some (Name p, answer)
             | inr _ => None
             end) providers.

Definition failures (ctx : Context) (prompt : string) (providers : list Provider)
  : list (string * error) :=
  omap (λ p, match Query p ctx prompt None with
             | inl _ => None
             | inr err => Some (Name p, err)
             end) providers.

(** What holds of the shared state between any two actions. *)
Record fan_inv (ctx : Context) (providers : list Provider) (prompt : string)
    (st : fanout) : Prop := {
  inv_length : length (goroutines st) = length providers;
  inv_answered : ∀ i o, goroutines st !! i = Some (Answered o) →
    ∃ p, providers !! i = Some p ∧ o = Query p ctx prompt None;
  inv_results : ∀ n a, results st !! n = Some a →
    ∃ i p, providers !! i = Some p ∧ goroutines st !! i = Some Finished ∧
           Name p = n ∧ Query p ctx prompt None = inl a;
  inv_errs : ∀ n e, errs st !! n = Some e →
    ∃ i p, providers !! i = Some p ∧ goroutines st !! i = Some Finished ∧
           Name p = n ∧ Query p ctx prompt None = inr e;
  inv_finished : ∀ i p, providers !! i = Some p →
    goroutines st !! i = Some Finished →
    match Query p ctx prompt None with
    | inl _ => is_Some (results st !! Name p)
    | inr _ => is_Some (errs st !! Name p)
    end;
  inv_calls : ∃ started : list nat,
    NoDup started ∧
    (∀ i, i ∈ started ↔ ∃ g, goroutines st !! i = Some g ∧ g ≠ Spawned) ∧
    calls st = omap (λ i, query_event prompt <$> providers !! i) started
}.


(** A run that ends with a fatal error before any [Query] is made. *)
Definition halts_before_queries (run : option (Outcome * list Event)) : Prop :=
  ∃ msg, run = Some (Fatal msg, []).

(** The credential of a provider is missing: its variable is unset (or
    empty, which [os.Getenv] does not tell apart). *)
Definition credential_missing (ToUpper : string → string)
    (environ : gmap string string) (name : string) : Prop :=
  Getenv environ (toEnvKey ToUpper name +:+ "_API_KEY") = "".

(** The reading under which a missing credential of an enabled provider
    stops the run before any query. *)
Definition missing_credential_is_fatal (ToUpper : string → string)
    (w : World) (f : Flags) (ch : Choices) : Prop :=
  ∀ cfg environ,
    loadConfig w (flag_config f) = inl cfg →
    godotenv_Load w (flag_env f) = inl environ →
    (∃ name, EnabledProviders cfg !! name = Some true ∧
             credential_missing ToUpper environ name) →
    halts_before_queries (main ToUpper w f ch).

(** A run whose calls are two calls of the provider [name], with two
    different prompts. *)
Definition prompts_differ (run : option (Outcome * list Event)) (name : string) : Prop :=
  ∃ out p1 p2, run = Some (out, [QueryEv name p1; QueryEv name p2]) ∧ p1 ≠ p2.

(** The struct literal from which [getEnabledProviders] builds the
    OpenAI provider. *)
Definition openai_struct (cfg : Config) (apiKeys : gmap string string) : OpenAIProvider :=
  {| enabled := default false (EnabledProviders cfg !! "openai");
     apiKey := default "" (apiKeys !! "openai") |}.

(** A provider that is switched off. *)
Definition disabled (name : string) : Provider :=
  {| Name := name; Enabled := false; Query := λ _ _ _, inr "disabled" |}.

(** The number of characters an entry adds to the synthesized prompt. *)
Definition entry_length (e : string * string) : nat :=
  String.length e.1 + String.length e.2 + 5.

(** * Properties *)

Example ToUpperASCII_openai : ToUpperASCII "openai" = "OPENAI".
Proof. reflexivity. Qed.

Example scenario_ABC :
  queryProviders ctx0 sampleABC "q" [2; 0; 1; 1; 0; 2]
  = Some ({["A" := "ans-A"; "C" := "ans-C"]}, {["B" := "timeout"]},
          [QueryEv "C" "q"; QueryEv "A" "q"; QueryEv "B" "q"]).
Proof. vm_compute. reflexivity. Qed.

Example scenario_blocked :
  queryProviders ctx0 [always "A" (inl "ans-A"); always "B" (inr "timeout")]
    "q" [0; 0; 1] = None.
Proof. reflexivity. Qed.

(** ** The goroutines make progress and the barrier opens *)

Section FanOutFacts.
Context (ctx : Context) (providers : list Provider) (prompt : string).

Lemma step_length st i :
  length (goroutines (step ctx providers prompt st i)) = length (goroutines st).
Proof.
  unfold step.
  destruct (providers !! i) as [p|]; [|done].
  destruct (goroutines st !! i) as [[|[a|e]|]|]; simpl;
    by rewrite ?length_insert.
Qed.

Lemma step_progress st i j g :
  length (goroutines st) = length providers →
  goroutines st !! j = Some g →
  ∃ g', goroutines (step ctx providers prompt st i) !! j = Some g' ∧
        progress g' = if decide (i = j) then min 2 (S (progress g)) else progress g.
Proof.
  intros Hlen Hj. unfold step.
  destruct (decide (i = j)) as [->|Hne].
  - assert (j < length (goroutines st)) as Hlt by (by eapply lookup_lt_Some).
    destruct (lookup_lt_is_Some_2 providers j) as [p Hp]; [lia|].
    rewrite Hp, Hj.
    destruct g as [|[a|e]|]; simpl;
      rewrite ?list_lookup_insert_eq by done; eauto.
  - destruct (providers !! i) as [p|]; [|eauto].
    destruct (goroutines st !! i) as [[|[a|e]|]|]; simpl;
      rewrite ?list_lookup_insert_ne by done; eauto.
Qed.

Lemma foldl_step_length st sched :
  length (goroutines (foldl (step ctx providers prompt) st sched))
  = length (goroutines st).
Proof.
  revert st. induction sched as [|i sched IH]; intros st; simpl; [done|].
  by rewrite IH, step_length.
Qed.

Lemma foldl_step_progress st sched j g :
  length (goroutines st) = length providers →
  goroutines st !! j = Some g →
  ∃ g', goroutines (foldl (step ctx providers prompt) st sched) !! j = Some g' ∧
        progress g' = min 2 (progress g + length (filter (λ k, k = j) sched)).
Proof.
  revert st g. induction sched as [|i sched IH]; intros st g Hlen Hj; cbn [foldl].
  - exists g. split; [done|]. by destruct g.
  - destruct (step_progress st i j g Hlen Hj) as (g1 & Hg1 & Hp1).
    destruct (IH (step ctx providers prompt st i) g1) as (g2 & Hg2 & Hp2);
      [by rewrite step_length|done|].
    exists g2. split; [done|]. rewrite Hp2, Hp1.
    rewrite filter_cons. destruct (decide (i = j)); rewrite ?length_cons; lia.
Qed.

Lemma run_progress sched j :
  j < length providers →
  ∃ g, goroutines (run ctx providers prompt sched) !! j = Some g ∧
       progress g = min 2 (length (filter (λ k, k = j) sched)).
Proof.
  intros Hj. unfold run.
  destruct (foldl_step_progress (spawn_all providers) sched j Spawned) as (g & ? & ?).
  - simpl. by rewrite length_replicate.
  - simpl. by apply lookup_replicate_2.
  - eauto.
Qed.

Lemma progress_finished g : progress g = 2 ↔ is_finished g = true.
Proof. destruct g; simpl; split; (done || lia). Qed.

(** The barrier opens exactly under the schedules in which every
    goroutine acts (at least) twice. *)
Lemma joined_completes sched :
  joined (run ctx providers prompt sched) = completes (length providers) sched.
Proof.
  apply eq_true_iff_eq. unfold joined, completes.
  rewrite <- !Is_true_true, !forallb_True, !Forall_lookup. split.
  - intros H i k Hk. apply lookup_seq in Hk as [-> Hi]. simpl.
    destruct (run_progress sched i Hi) as (g & Hg & Hp).
    apply H in Hg. apply Is_true_true, progress_finished in Hg.
    apply bool_decide_pack. lia.
  - intros H j g Hg.
    assert (j < length providers) as Hj.
    { apply lookup_lt_Some in Hg. unfold run in Hg.
      rewrite foldl_step_length in Hg. simpl in Hg.
      by rewrite length_replicate in Hg. }
    destruct (run_progress sched j Hj) as (g' & Hg' & Hp).
    assert (g' = g) as -> by congruence.
    specialize (H j j). rewrite lookup_seq_lt in H by done.
    specialize (H eq_refl). apply bool_decide_unpack in H.
    apply Is_true_true, progress_finished. lia.
Qed.
End FanOutFacts.

(** ** The invariant of the shared state *)

Section FanOutInvariant.
Context (ctx : Context) (providers : list Provider) (prompt : string).

Lemma finished_stays (gs : list goroutine) i j :
  gs !! j = Some Finished → <[i := Finished]> gs !! j = Some Finished.
Proof.
  intros Hj. destruct (decide (i = j)) as [->|Hne].
  - apply list_lookup_insert_eq. by eapply lookup_lt_Some.
  - by rewrite list_lookup_insert_ne.
Qed.

Lemma started_stays (gs : list goroutine) i j g0 g1 :
  gs !! i = Some g0 → g0 ≠ Spawned → g1 ≠ Spawned →
  (∃ g, <[i := g1]> gs !! j = Some g ∧ g ≠ Spawned) ↔
  (∃ g, gs !! j = Some g ∧ g ≠ Spawned).
Proof.
  intros Hi H0 H1. destruct (decide (i = j)) as [<-|Hne].
  - rewrite list_lookup_insert_eq by (by eapply lookup_lt_Some).
    split; intros _; [by exists g0|by exists g1].
  - by rewrite list_lookup_insert_ne.
Qed.

Lemma fan_inv_spawn_all : fan_inv ctx providers prompt (spawn_all providers).
Proof.
  split; simpl.
  - apply length_replicate.
  - intros i o [? _]%lookup_replicate. done.
  - intros n a. by rewrite lookup_empty.
  - intros n e. by rewrite lookup_empty.
  - intros i p _ [? _]%lookup_replicate. done.
  - exists []. split; [constructor|]. split; [|done].
    intros i. rewrite elem_of_nil. split; [done|].
    intros (g & [-> _]%lookup_replicate & ?). done.
Qed.

(** Goroutine [i] calls [Query]. *)
Lemma fan_inv_query st i p :
  fan_inv ctx providers prompt st →
  providers !! i = Some p → goroutines st !! i = Some Spawned →
  fan_inv ctx providers prompt
    {| goroutines := <[i := Answered (Query p ctx prompt None)]> (goroutines st);
       results := results st; errs := errs st;
       calls := calls st ++ [query_event prompt p] |}.
Proof.
  intros [Hlen Hans Hres Herr Hfin (started & Hnd & Hin & Hcalls)] Hp Hg.
  assert (i < length (goroutines st)) as Hlt by (by eapply lookup_lt_Some).
  split; simpl.
  - by rewrite length_insert.
  - intros j o Hj. apply list_lookup_insert_Some in Hj as [(<- & [= <-] & _)|[? Hj]].
    + exists p. split; [exact Hp|reflexivity].
    + exact (Hans j o Hj).
  - intros n a Hn. destruct (Hres n a Hn) as (j & q & Hq & Hj & ? & ?).
    exists j, q. split_and!; try done.
    rewrite list_lookup_insert_ne; [done|]. intros ->. congruence.
  - intros n e Hn. destruct (Herr n e Hn) as (j & q & Hq & Hj & ? & ?).
    exists j, q. split_and!; try done.
    rewrite list_lookup_insert_ne; [done|]. intros ->. congruence.
  - intros j q Hq Hj.
    apply list_lookup_insert_Some in Hj as [(_ & ? & _)|[? Hj]]; [done|].
    exact (Hfin j q Hq Hj).
  - assert (i ∉ started) as Hnew.
    { rewrite Hin. intros (g & ? & ?). congruence. }
    exists (started ++ [i]). split_and!.
    + apply NoDup_app. split_and!; [done| |apply NoDup_singleton].
      intros j Hj ->%list_elem_of_singleton. done.
    + intros j. rewrite elem_of_app, list_elem_of_singleton, Hin.
      destruct (decide (i = j)) as [<-|Hne].
      * rewrite list_lookup_insert_eq by done.
        split; [intros _; by eexists|by right].
      * rewrite list_lookup_insert_ne by done.
        split; [intros [?| ->]; done|by left].
    + rewrite omap_app, Hcalls. simpl. by rewrite Hp.
Qed.

(** Goroutine [i] records an answer under the mutex. *)
Lemma fan_inv_answer st i p answer :
  fan_inv ctx providers prompt st →
  providers !! i = Some p → goroutines st !! i = Some (Answered (inl answer)) →
  fan_inv ctx providers prompt
    {| goroutines := <[i := Finished]> (goroutines st);
       results := <[Name p := answer]> (results st); errs := errs st;
       calls := calls st |}.
Proof.
  intros [Hlen Hans Hres Herr Hfin (started & Hnd & Hin & Hcalls)] Hp Hg.
  assert (i < length (goroutines st)) as Hlt by (by eapply lookup_lt_Some).
  assert (Query p ctx prompt None = inl answer) as Hq.
  { destruct (Hans i _ Hg) as (p' & ? & ?). congruence. }
  split; simpl.
  - by rewrite length_insert.
  - intros j o Hj. apply list_lookup_insert_Some in Hj as [(_ & ? & _)|[? Hj]];
      [done|by apply Hans].
  - intros n a Hn. apply lookup_insert_Some in Hn as [[<- <-]|[? Hn]].
    + exists i, p. split_and!; try done. by apply list_lookup_insert_eq.
    + destruct (Hres n a Hn) as (j & q & ? & ? & ? & ?).
      exists j, q. split_and!; try done. by apply finished_stays.
  - intros n e Hn. destruct (Herr n e Hn) as (j & q & ? & ? & ? & ?).
    exists j, q. split_and!; try done. by apply finished_stays.
  - intros j q Hj Hgj.
    apply list_lookup_insert_Some in Hgj as [(<- & _ & _)|[? Hgj]].
    + assert (q = p) as -> by congruence. rewrite Hq.
      rewrite lookup_insert_eq. eauto.
    + specialize (Hfin j q Hj Hgj). destruct (Query q ctx prompt None); [|done].
      apply lookup_insert_is_Some'. by right.
  - exists started. split_and!; [done| |done].
    intros j. rewrite Hin. symmetry. by eapply started_stays.
Qed.

(** Goroutine [i] records an error under the mutex. *)
Lemma fan_inv_error st i p err :
  fan_inv ctx providers prompt st →
  providers !! i = Some p → goroutines st !! i = Some (Answered (inr err)) →
  fan_inv ctx providers prompt
    {| goroutines := <[i := Finished]> (goroutines st);
       results := results st; errs := <[Name p := err]> (errs st);
       calls := calls st |}.
Proof.
  intros [Hlen Hans Hres Herr Hfin (started & Hnd & Hin & Hcalls)] Hp Hg.
  assert (i < length (goroutines st)) as Hlt by (by eapply lookup_lt_Some).
  assert (Query p ctx prompt None = inr err) as Hq.
  { destruct (Hans i _ Hg) as (p' & ? & ?). congruence. }
  split; simpl.
  - by rewrite length_insert.
  - intros j o Hj. apply list_lookup_insert_Some in Hj as [(_ & ? & _)|[? Hj]];
      [done|by apply Hans].
  - intros n a Hn. destruct (Hres n a Hn) as (j & q & ? & ? & ? & ?).
    exists j, q. split_and!; try done. by apply finished_stays.
  - intros n e Hn. apply lookup_insert_Some in Hn as [[<- <-]|[? Hn]].
    + exists i, p. split_and!; try done. by apply list_lookup_insert_eq.
    + destruct (Herr n e Hn) as (j & q & ? & ? & ? & ?).
      exists j, q. split_and!; try done. by apply finished_stays.
  - intros j q Hj Hgj.
    apply list_lookup_insert_Some in Hgj as [(<- & _ & _)|[? Hgj]].
    + assert (q = p) as -> by congruence. rewrite Hq.
      rewrite lookup_insert_eq. eauto.
    + specialize (Hfin j q Hj Hgj). destruct (Query q ctx prompt None); [done|].
      apply lookup_insert_is_Some'. by right.
  - exists started. split_and!; [done| |done].
    intros j. rewrite Hin. symmetry. by eapply started_stays.
Qed.

Lemma fan_inv_step st i :
  fan_inv ctx providers prompt st →
  fan_inv ctx providers prompt (step ctx providers prompt st i).
Proof.
  intros Hinv. unfold step.
  destruct (providers !! i) as [p|] eqn:Hp; [|done].
  destruct (goroutines st !! i) as [[|[answer|err]|]|] eqn:Hg; try done.
  - by apply fan_inv_query.
  - by apply fan_inv_answer.
  - by apply fan_inv_error.
Qed.

Lemma fan_inv_run sched : fan_inv ctx providers prompt (run ctx providers prompt sched).
Proof.
  unfold run. generalize fan_inv_spawn_all. generalize (spawn_all providers).
  induction sched as [|i sched IH]; intros st Hst; simpl; [done|].
  apply IH. by apply fan_inv_step.
Qed.
End FanOutInvariant.

(** ** What [queryProviders] returns *)

Lemma omap_lookup_seq_app {A B} (f : A → B) (pre l : list A) :
  omap (λ i, f <$> (pre ++ l) !! i) (seq (length pre) (length l)) = f <$> l.
Proof.
  revert pre. induction l as [|x l IH]; intros pre; [done|].
  cbn [length seq omap list_omap].
  rewrite list_lookup_middle by done. cbn [fmap option_fmap option_map].
  rewrite fmap_cons. f_equal.
  specialize (IH (pre ++ [x])).
  rewrite <- app_assoc, length_app, Nat.add_1_r in IH. exact IH.
Qed.

Lemma omap_lookup_seq {A B} (f : A → B) (l : list A) :
  omap (λ i, f <$> l !! i) (seq 0 (length l)) = f <$> l.
Proof. exact (omap_lookup_seq_app f [] l). Qed.

Section FanOutReturns.
Context (ctx : Context) (providers : list Provider) (prompt : string).

Lemma queryProviders_Some sched r e t :
  queryProviders ctx providers prompt sched = Some (r, e, t) →
  joined (run ctx providers prompt sched) = true ∧
  r = results (run ctx providers prompt sched) ∧
  e = errs (run ctx providers prompt sched) ∧
  t = calls (run ctx providers prompt sched).
Proof.
  unfold queryProviders.
  destruct (joined (run ctx providers prompt sched)); [|done].
  by intros [= <- <- <-].
Qed.

(** The barrier opens under every complete schedule, and under no other. *)
Lemma queryProviders_returns sched :
  is_Some (queryProviders ctx providers prompt sched) ↔
  completes (length providers) sched = true.
Proof.
  unfold queryProviders. rewrite joined_completes.
  destruct (completes (length providers) sched); split; try done.
Qed.

Lemma sequential_completes :
  completes (length providers) (sequential providers) = true.
Proof.
  unfold completes, sequential. apply Is_true_true, forallb_True, Forall_forall.
  intros i Hi. apply bool_decide_pack.
  revert Hi. generalize (seq 0 (length providers)).
  induction l as [|k l IH]; [by intros ?%elem_of_nil|].
  intros Hk. cbn [flat_map app]. rewrite !filter_cons.
  destruct (decide (k = i)); [simpl; lia|].
  apply IH. apply elem_of_cons in Hk as [->|?]; done.
Qed.

(** Run one after the other, the goroutines let [queryProviders] return. *)
Lemma queryProviders_sequential_returns :
  is_Some (queryProviders ctx providers prompt (sequential providers)).
Proof. apply queryProviders_returns, sequential_completes. Qed.

Lemma joined_all_finished sched i :
  joined (run ctx providers prompt sched) = true →
  i < length providers →
  goroutines (run ctx providers prompt sched) !! i = Some Finished.
Proof.
  intros Hj Hi. unfold joined in Hj.
  apply Is_true_true, forallb_True in Hj. rewrite Forall_lookup in Hj.
  destruct (run_progress ctx providers prompt sched i Hi) as (g & Hg & _).
  specialize (Hj i g Hg). by destruct g.
Qed.

Section Returned.
Context (sched : list nat) (r : gmap string string) (e : gmap string error)
        (t : list Event).
Hypothesis Hret : queryProviders ctx providers prompt sched = Some (r, e, t).

(** Every answer in [results] is the answer of a provider of that name. *)
Lemma results_sound n a :
  r !! n = Some a →
  ∃ p, p ∈ providers ∧ Name p = n ∧ Query p ctx prompt None = inl a.
Proof.
  destruct (queryProviders_Some _ _ _ _ Hret) as (_ & -> & _ & _).
  intros Hn.
  destruct (inv_results _ _ _ _ (fan_inv_run ctx providers prompt sched) n a Hn)
    as (i & p & Hp & _ & ? & ?).
  exists p. split_and!; try done. by eapply list_elem_of_lookup_2.
Qed.

Lemma errs_sound n x :
  e !! n = Some x →
  ∃ p, p ∈ providers ∧ Name p = n ∧ Query p ctx prompt None = inr x.
Proof.
  destruct (queryProviders_Some _ _ _ _ Hret) as (_ & _ & -> & _).
  intros Hn.
  destruct (inv_errs _ _ _ _ (fan_inv_run ctx providers prompt sched) n x Hn)
    as (i & p & Hp & _ & ? & ?).
  exists p. split_and!; try done. by eapply list_elem_of_lookup_2.
Qed.

(** Every provider is recorded, under its name, on the side of its outcome. *)
Lemma outcome_recorded p :
  p ∈ providers →
  match Query p ctx prompt None with
  | inl _ => is_Some (r !! Name p)
  | inr _ => is_Some (e !! Name p)
  end.
Proof.
  destruct (queryProviders_Some _ _ _ _ Hret) as (Hj & -> & -> & _).
  intros (i & Hi)%list_elem_of_lookup_1.
  apply (inv_finished _ _ _ _ (fan_inv_run ctx providers prompt sched) i p Hi).
  apply joined_all_finished; [done|]. by eapply lookup_lt_Some.
Qed.

(** The calls made are one call per provider, with the prompt. *)
Lemma calls_once : t ≡ₚ query_event prompt <$> providers.
Proof.
  destruct (queryProviders_Some _ _ _ _ Hret) as (Hj & _ & _ & ->).
  destruct (inv_calls _ _ _ _ (fan_inv_run ctx providers prompt sched))
    as (started & Hnd & Hin & ->).
  rewrite <- (omap_lookup_seq (query_event prompt) providers).
  apply omap_Permutation, NoDup_Permutation; [done|apply NoDup_seq|].
  intros i. rewrite Hin, elem_of_seq. split.
  - intros (g & Hg%lookup_lt_Some & _).
    rewrite (inv_length _ _ _ _ (fan_inv_run ctx providers prompt sched)) in Hg. lia.
  - intros [_ Hi]. exists Finished. split; [|done]. by apply joined_all_finished.
Qed.
End Returned.
End FanOutReturns.

Arguments results_sound {ctx providers prompt sched r e t} Hret n a.
Arguments errs_sound {ctx providers prompt sched r e t} Hret n x.
Arguments outcome_recorded {ctx providers prompt sched r e t} Hret p.
Arguments calls_once {ctx providers prompt sched r e t} Hret.

(** Under a complete schedule, name what [queryProviders] returns. *)
Ltac returned Hc r e t Hret :=
  match goal with
  | |- context [queryProviders ?ctx ?providers ?prompt ?sched] =>
      destruct (proj2 (queryProviders_returns ctx providers prompt sched) Hc)
        as [[[r e] t] Hret]
  end.

(** ** The recorded entries, for providers with distinct names *)

Section Partition.
Context (ctx : Context) (prompt : string).

Lemma elem_of_successes providers n a :
  (n, a) ∈ successes ctx prompt providers ↔
  ∃ p, p ∈ providers ∧ Name p = n ∧ Query p ctx prompt None = inl a.
Proof.
  unfold successes. rewrite list_elem_of_omap. split.
  - intros (p & Hp & Hq). exists p. split; [done|].
    destruct (Query p ctx prompt None); [|done]. by injection Hq as <- <-.
  - intros (p & Hp & <- & Hq). exists p. split; [done|]. by rewrite Hq.
Qed.

Lemma elem_of_failures providers n x :
  (n, x) ∈ failures ctx prompt providers ↔
  ∃ p, p ∈ providers ∧ Name p = n ∧ Query p ctx prompt None = inr x.
Proof.
  unfold failures. rewrite list_elem_of_omap. split.
  - intros (p & Hp & Hq). exists p. split; [done|].
    destruct (Query p ctx prompt None); [done|]. by injection Hq as <- <-.
  - intros (p & Hp & <- & Hq). exists p. split; [done|]. by rewrite Hq.
Qed.

Lemma successes_names providers :
  (successes ctx prompt providers).*1 `sublist_of` Name <$> providers.
Proof.
  induction providers as [|p ps IH]; [done|].
  unfold successes in *. cbn [omap list_omap]. rewrite fmap_cons.
  destruct (Query p ctx prompt None); simpl.
  - by apply sublist_skip.
  - by apply sublist_cons.
Qed.

Lemma failures_names providers :
  (failures ctx prompt providers).*1 `sublist_of` Name <$> providers.
Proof.
  induction providers as [|p ps IH]; [done|].
  unfold failures in *. cbn [omap list_omap]. rewrite fmap_cons.
  destruct (Query p ctx prompt None); simpl.
  - by apply sublist_cons.
  - by apply sublist_skip.
Qed.

Lemma successes_failures_length providers :
  length (successes ctx prompt providers) + length (failures ctx prompt providers)
  = length providers.
Proof.
  induction providers as [|p ps IH]; [done|].
  unfold successes, failures in *. cbn [omap list_omap].
  destruct (Query p ctx prompt None); simpl; lia.
Qed.

(** Distinct names: a name determines the provider. *)
Lemma provider_of_name providers p q :
  NoDup (Name <$> providers) → p ∈ providers → q ∈ providers →
  Name p = Name q → p = q.
Proof.
  intros Hnd (i & Hi)%list_elem_of_lookup_1 (j & Hj)%list_elem_of_lookup_1 Hpq.
  assert (i = j) as ->; [|congruence].
  apply (NoDup_lookup (Name <$> providers) i j (Name p)); [done|..].
  - by rewrite list_lookup_fmap, Hi.
  - by rewrite list_lookup_fmap, Hj, Hpq.
Qed.

(** With distinct names the two maps are those of the functional
    description, whatever the interleaving. *)
Lemma queryProviders_spec providers sched r e t :
  NoDup (Name <$> providers) →
  queryProviders ctx providers prompt sched = Some (r, e, t) →
  r = list_to_map (successes ctx prompt providers) ∧
  e = list_to_map (failures ctx prompt providers).
Proof.
  intros Hnd Hret. split; apply map_eq; intros n.
  - destruct (r !! n) as [a|] eqn:Hn; symmetry.
    + apply elem_of_list_to_map_1.
      * eapply sublist_NoDup; [|apply successes_names]; done.
      * apply elem_of_successes. by eapply results_sound.
    + apply not_elem_of_list_to_map_1.
      intros ([n' a] & -> & Hin%elem_of_successes)%list_elem_of_fmap.
      destruct Hin as (p & Hp & Hname & Hq). simpl in Hn.
      pose proof (outcome_recorded Hret p Hp) as Hrec.
      rewrite Hq, Hname, Hn in Hrec. by destruct Hrec.
  - destruct (e !! n) as [x|] eqn:Hn; symmetry.
    + apply elem_of_list_to_map_1.
      * eapply sublist_NoDup; [|apply failures_names]; done.
      * apply elem_of_failures. by eapply errs_sound.
    + apply not_elem_of_list_to_map_1.
      intros ([n' x] & -> & Hin%elem_of_failures)%list_elem_of_fmap.
      destruct Hin as (p & Hp & Hname & Hq). simpl in Hn.
      pose proof (outcome_recorded Hret p Hp) as Hrec.
      rewrite Hq, Hname, Hn in Hrec. by destruct Hrec.
Qed.

(** With distinct names no name is on both sides. *)
Lemma results_errs_disjoint providers sched r e t n :
  NoDup (Name <$> providers) →
  queryProviders ctx providers prompt sched = Some (r, e, t) →
  is_Some (r !! n) → is_Some (e !! n) → False.
Proof.
  intros Hnd Hret [a Ha] [x Hx].
  destruct (results_sound Hret n a Ha) as (p & Hp & Hnp & Hqp).
  destruct (errs_sound Hret n x Hx) as (q & Hq & Hnq & Hqq).
  assert (p = q) as -> by (eapply provider_of_name; [done..|congruence]).
  congruence.
Qed.
End Partition.

(** ** Fan-out partitions the providers *)

(** C1.  For a non-empty list of providers with pairwise distinct names,
    under every schedule that lets the barrier open, [queryProviders]
    returns, the sizes of [results] and [errs] add up to the number of
    providers, the two key sets are disjoint, and every provider's name is
    a key of exactly one of the two maps. *)
Theorem queryProviders_partition ctx providers prompt sched :
  providers ≠ [] →
  NoDup (Name <$> providers) →
  completes (length providers) sched = true →
  ∃ r e t,
    queryProviders ctx providers prompt sched = Some (r, e, t) ∧
    size r + size e = length providers ∧
    dom r ## dom e ∧
    ∀ p, p ∈ providers →
      (Name p ∈ dom r ∧ Name p ∉ dom e) ∨ ((Name p ∉ dom r) ∧ (Name p ∈ dom e)).
Proof.
  intros _ Hnd Hc.
  returned Hc r e t Hret.
  exists r, e, t. split; [done|].
  assert (∀ n, n ∈ dom r → n ∈ dom e → False) as Hdisj.
  { intros n Hr%elem_of_dom He%elem_of_dom.
    by eapply results_errs_disjoint. }
  split_and!.
  - destruct (queryProviders_spec _ _ _ _ _ _ _ Hnd Hret) as [-> ->].
    rewrite !map_size_list_to_map.
    + apply successes_failures_length.
    + eapply sublist_NoDup; [|apply failures_names]; done.
    + eapply sublist_NoDup; [|apply successes_names]; done.
  - intros n. apply Hdisj.
  - intros p Hp.
    pose proof (outcome_recorded Hret p Hp) as Hrec.
    destruct (Query p ctx prompt None).
    + apply elem_of_dom in Hrec. left. split; [done|]. intros ?. by eapply Hdisj.
    + apply elem_of_dom in Hrec. right. split; [|done]. intros ?. by eapply Hdisj.
Qed.

(** ** Every provider is asked once *)

(** C4.  Under every schedule that lets the barrier open,
    [queryProviders] returns having called [Query] once per provider of
    the list, each time with the original prompt; a provider whose query
    failed is a key of [errs]; and with distinct names each provider is
    recorded with its own outcome only: its answer in [results], or its
    error in [errs] and nothing in [results]. *)
Theorem queryProviders_once ctx providers prompt sched :
  completes (length providers) sched = true →
  ∃ r e t,
    queryProviders ctx providers prompt sched = Some (r, e, t) ∧
    t ≡ₚ query_event prompt <$> providers ∧
    (∀ p err, p ∈ providers → Query p ctx prompt None = inr err →
       is_Some (e !! Name p)) ∧
    (NoDup (Name <$> providers) → ∀ p, p ∈ providers →
       match Query p ctx prompt None with
       | inl answer => r !! Name p = Some answer ∧ e !! Name p = None
       | inr err => e !! Name p = Some err ∧ r !! Name p = None
       end).
Proof.
  intros Hc.
  returned Hc r e t Hret.
  exists r, e, t. split_and!; [done|by eapply calls_once|..].
  - intros p err Hp Hq.
    pose proof (outcome_recorded Hret p Hp) as Hrec.
    by rewrite Hq in Hrec.
  - intros Hnd p Hp.
    pose proof (outcome_recorded Hret p Hp) as Hrec.
    destruct (Query p ctx prompt None) as [answer|err] eqn:Hq.
    + destruct Hrec as [a Ha]. split.
      * destruct (results_sound Hret _ _ Ha) as (q & Hq' & Hn & Hqa).
        assert (q = p) as -> by by eapply provider_of_name. congruence.
      * apply eq_None_not_Some. intros ?.
        eapply results_errs_disjoint; eauto.
    + destruct Hrec as [x Hx]. split.
      * destruct (errs_sound Hret _ _ Hx) as (q & Hq' & Hn & Hqx).
        assert (q = p) as -> by by eapply provider_of_name. congruence.
      * apply eq_None_not_Some. intros ?.
        eapply results_errs_disjoint; eauto.
Qed.

(** ** The key sets do not depend on the interleaving *)

(** C7.  Two runs of [queryProviders] over the same providers and prompt,
    under any two schedules that let the barrier open, in which every
    provider succeeds in the one run iff it succeeds in the other, return
    maps with the same key sets. *)
Theorem queryProviders_key_sets ctx1 ctx2 providers prompt sched1 sched2 :
  (∀ p, p ∈ providers →
     succeeded (Query p ctx1 prompt None) = succeeded (Query p ctx2 prompt None)) →
  completes (length providers) sched1 = true →
  completes (length providers) sched2 = true →
  ∃ r1 e1 t1 r2 e2 t2,
    queryProviders ctx1 providers prompt sched1 = Some (r1, e1, t1) ∧
    queryProviders ctx2 providers prompt sched2 = Some (r2, e2, t2) ∧
    dom r1 = dom r2 ∧ dom e1 = dom e2.
Proof.
  intros Hsame Hc1 Hc2.
  returned Hc1 r1 e1 t1 Hret1.
  returned Hc2 r2 e2 t2 Hret2.
  exists r1, e1, t1, r2, e2, t2. split_and!; try done.
  - apply set_eq. intros n. rewrite !elem_of_dom. split; intros [a Ha].
    + destruct (results_sound Hret1 _ _ Ha) as (p & Hp & <- & Hq).
      pose proof (outcome_recorded Hret2 p Hp) as Hrec.
      specialize (Hsame p Hp). rewrite Hq in Hsame.
      by destruct (Query p ctx2 prompt None).
    + destruct (results_sound Hret2 _ _ Ha) as (p & Hp & <- & Hq).
      pose proof (outcome_recorded Hret1 p Hp) as Hrec.
      specialize (Hsame p Hp). rewrite Hq in Hsame.
      by destruct (Query p ctx1 prompt None).
  - apply set_eq. intros n. rewrite !elem_of_dom. split; intros [x Hx].
    + destruct (errs_sound Hret1 _ _ Hx) as (p & Hp & <- & Hq).
      pose proof (outcome_recorded Hret2 p Hp) as Hrec.
      specialize (Hsame p Hp). rewrite Hq in Hsame.
      by destruct (Query p ctx2 prompt None).
    + destruct (errs_sound Hret2 _ _ Hx) as (p & Hp & <- & Hq).
      pose proof (outcome_recorded Hret1 p Hp) as Hrec.
      specialize (Hsame p Hp). rewrite Hq in Hsame.
      by destruct (Query p ctx1 prompt None).
Qed.

Lemma sampleABC_names : NoDup (Name <$> sampleABC).
Proof. apply (bool_decide_unpack (NoDup (Name <$> sampleABC))). vm_compute. exact I. Qed.

Lemma queryProviders_partition_witness :
  ∃ r e t,
    queryProviders ctx0 sampleABC "q" [2; 0; 1; 1; 0; 2] = Some (r, e, t) ∧
    size r + size e = length sampleABC ∧
    dom r ## dom e ∧
    ∀ p, p ∈ sampleABC →
      (Name p ∈ dom r ∧ Name p ∉ dom e) ∨ ((Name p ∉ dom r) ∧ (Name p ∈ dom e)).
Proof.
  apply (queryProviders_partition ctx0 sampleABC "q" [2; 0; 1; 1; 0; 2]).
  - discriminate.
  - exact sampleABC_names.
  - reflexivity.
Defined.

Lemma queryProviders_once_witness :
  ∃ r e t,
    queryProviders ctx0 sampleABC "q" [2; 0; 1; 1; 0; 2] = Some (r, e, t) ∧
    t ≡ₚ query_event "q" <$> sampleABC ∧
    (∀ p err, p ∈ sampleABC → Query p ctx0 "q" None = inr err →
       is_Some (e !! Name p)) ∧
    (∀ p, p ∈ sampleABC →
       match Query p ctx0 "q" None with
       | inl answer => r !! Name p = Some answer ∧ e !! Name p = None
       | inr err => e !! Name p = Some err ∧ r !! Name p = None
       end).
Proof.
  destruct (queryProviders_once ctx0 sampleABC "q" [2; 0; 1; 1; 0; 2] eq_refl)
    as (r & e & t & Hret & Ht & Hfail & Hown).
  exists r, e, t. split_and!; [exact Hret|exact Ht|exact Hfail|].
  exact (Hown sampleABC_names).
Defined.

Lemma queryProviders_key_sets_witness :
  ∃ r1 e1 t1 r2 e2 t2,
    queryProviders ctx0 [dated "D"; always "B" (inr "timeout")] "q" [0; 1; 1; 0]
      = Some (r1, e1, t1) ∧
    queryProviders (WithTimeout (100 * Second) (60 * Second))
      [dated "D"; always "B" (inr "timeout")] "q" [1; 1; 0; 0]
      = Some (r2, e2, t2) ∧
    dom r1 = dom r2 ∧ dom e1 = dom e2.
Proof.
  apply (queryProviders_key_sets ctx0 (WithTimeout (100 * Second) (60 * Second))
           [dated "D"; always "B" (inr "timeout")] "q" [0; 1; 1; 0] [1; 1; 0; 0]).
  - intros p Hp.
    apply elem_of_cons in Hp as [->|Hp]; [reflexivity|].
    apply elem_of_cons in Hp as [->|Hp]; [reflexivity|].
    by apply elem_of_nil in Hp.
  - reflexivity.
  - reflexivity.
Defined.

(** The values may differ between the two runs while the keys agree. *)
Example dated_values_differ :
  queryProviders ctx0 [dated "D"; always "B" (inr "timeout")] "q" [0; 1; 1; 0]
    = Some ({["D" := "early"]}, {["B" := "timeout"]}, [QueryEv "D" "q"; QueryEv "B" "q"]) ∧
  queryProviders (WithTimeout (100 * Second) (60 * Second))
    [dated "D"; always "B" (inr "timeout")] "q" [1; 1; 0; 0]
    = Some ({["D" := "late"]}, {["B" := "timeout"]}, [QueryEv "B" "q"; QueryEv "D" "q"]).
Proof. split; vm_compute; reflexivity. Qed.

(** ** The empty provider list *)

Lemma run_nil ctx prompt sched : run ctx [] prompt sched = spawn_all [].
Proof.
  unfold run. generalize (spawn_all []).
  induction sched as [|i sched IH]; intros st; [done|]. simpl. apply IH.
Qed.

(** C9.  On the empty provider list [queryProviders] returns under every
    schedule, the empty one included, with two empty maps and no call
    made; [main], continued from that call, then ends with the fatal error
    of a run in which no provider answered. *)
Theorem queryProviders_empty ctx prompt summarizer ch sched :
  queryProviders ctx [] prompt sched = Some (∅, ∅, []) ∧
  main_fanout ctx [] prompt summarizer ch
    = Some (Fatal "No providers returned an answer", []).
Proof.
  assert (∀ s, queryProviders ctx [] prompt s = Some (∅, ∅, [])) as H.
  { intros s. unfold queryProviders. by rewrite run_nil. }
  split; [apply H|].
  unfold main_fanout, main_after_fanout. rewrite H.
  by rewrite bool_decide_eq_true_2 by apply map_size_empty.
Qed.

(** ** Total failure *)

Lemma main_after_fanout_empty ctx providers summarizer seed :
  main_after_fanout ctx providers summarizer seed ∅
  = (Fatal "No providers returned an answer", []).
Proof.
  unfold main_after_fanout.
  rewrite bool_decide_eq_true_2; [done|apply map_size_empty].
Qed.

Lemma main_after_fanout_nonempty ctx providers summarizer seed r :
  r ≠ ∅ →
  main_after_fanout ctx providers summarizer seed r
  = match findSummarizerProvider providers summarizer with
    | None => (Fatal "Summarizer provider not found or not enabled", [])
    | Some summarizerProvider =>
        match summarizeAnswers ctx summarizerProvider r seed with
        | (inr err, called) => (Fatal "Summarizer failed", called)
        | (inl summary, called) =>
            (Printed ["----- Final Verdict -----"; summary], called)
        end
    end.
Proof.
  intros Hr. unfold main_after_fanout.
  rewrite bool_decide_eq_false_2; [done|]. by intros ?%map_size_empty_inv.
Qed.

(** C2.  When every provider's query fails, then under every schedule
    that lets the barrier open, fan-out returns an empty [results] and
    [main] ends there with the fatal error; the calls of [Query] in the
    whole run are the one call per provider with the original prompt, so
    no provider is called with a synthesized prompt. *)
Theorem all_failed_halts ctx providers prompt summarizer ch :
  (∀ p, p ∈ providers → succeeded (Query p ctx prompt None) = false) →
  completes (length providers) (schedule ch) = true →
  ∃ e t,
    queryProviders ctx providers prompt (schedule ch) = Some (∅, e, t) ∧
    main_fanout ctx providers prompt summarizer ch
      = Some (Fatal "No providers returned an answer", t) ∧
    t ≡ₚ query_event prompt <$> providers ∧
    ∀ ev, ev ∈ t → ev_prompt ev = prompt.
Proof.
  intros Hfail Hc.
  returned Hc r e t Hret.
  assert (r = ∅) as ->.
  { apply map_empty. intros n. apply eq_None_not_Some. intros [a Ha].
    destruct (results_sound Hret _ _ Ha) as (p & Hp & _ & Hq).
    specialize (Hfail p Hp). by rewrite Hq in Hfail. }
  pose proof (calls_once Hret) as Ht.
  exists e, t. split_and!; try done.
  - unfold main_fanout. rewrite Hret, main_after_fanout_empty.
    by rewrite app_nil_r.
  - intros ev. rewrite Ht. intros (p & -> & _)%list_elem_of_fmap. done.
Qed.

Lemma all_failed_halts_witness :
  ∃ e t,
    queryProviders ctx0 sample_failing "q" [1; 0; 1; 0] = Some (∅, e, t) ∧
    main_fanout ctx0 sample_failing "q" "A"
        {| names_seed := 0; schedule := [1; 0; 1; 0]; answers_seed := 0 |}
      = Some (Fatal "No providers returned an answer", t) ∧
    t ≡ₚ query_event "q" <$> sample_failing ∧
    ∀ ev, ev ∈ t → ev_prompt ev = "q".
Proof.
  apply (all_failed_halts ctx0 sample_failing "q" "A"
           {| names_seed := 0; schedule := [1; 0; 1; 0]; answers_seed := 0 |}).
  - intros p Hp.
    apply elem_of_cons in Hp as [->|Hp]; [reflexivity|].
    apply elem_of_cons in Hp as [->|Hp]; [reflexivity|].
    by apply elem_of_nil in Hp.
  - reflexivity.
Defined.

(** ** Ranging over a map, in any order *)

Lemma range_Permutation {V} seed (m : gmap string V) :
  range seed m ≡ₚ map_to_list m.
Proof.
  unfold range.
  destruct (permutations (map_to_list m) !! _) as [l|] eqn:Hl; [|done].
  symmetry. apply permutations_Permutation. by eapply list_elem_of_lookup_2.
Qed.

Lemma range_any_order {V} (m : gmap string V) l :
  l ≡ₚ map_to_list m → ∃ seed, range seed m = l.
Proof.
  intros Hl. symmetry in Hl. apply permutations_Permutation in Hl.
  apply list_elem_of_lookup_1 in Hl as [i Hi].
  exists i. unfold range.
  rewrite Nat.mod_small by (by eapply lookup_lt_Some). by rewrite Hi.
Qed.

Lemma range_singleton {V} seed n (v : V) :
  range seed ({[n := v]} : gmap string V) = [(n, v)].
Proof.
  apply Permutation_singleton_r. rewrite range_Permutation.
  by rewrite map_to_list_singleton.
Qed.

Lemma elem_of_range {V} seed (m : gmap string V) n v :
  (n, v) ∈ range seed m ↔ m !! n = Some v.
Proof. by rewrite range_Permutation, elem_of_map_to_list. Qed.

(** ** Strings *)


Lemma length_append (s1 s2 : string) :
  String.length (s1 +:+ s2) = String.length s1 + String.length s2.
Proof.
  induction s1 as [|c s1 IH]; [done|].
  change (S (String.length (s1 +:+ s2)) = S (String.length s1 + String.length s2)).
  by f_equal.
Qed.


(** ** The synthesized prompt *)




Lemma synthesize_singleton x : synthesize [x] = header +:+ entry x.
Proof. done. Qed.



(** The scenario of the three providers: the prompt sent to the
    summarizer, in both orders of the two answers. *)
Example scenario_ABC_prompt :
  synthesize (range 0 ({["A" := "ans-A"; "C" := "ans-C"]} : gmap string string))
    = header +:+ "[C]: ans-C" +:+ nl +:+ "[A]: ans-A" +:+ nl ∧
  synthesize (range 1 ({["A" := "ans-A"; "C" := "ans-C"]} : gmap string string))
    = header +:+ "[A]: ans-A" +:+ nl +:+ "[C]: ans-C" +:+ nl.
Proof. split; vm_compute; reflexivity. Qed.

(** ** The summarizer selector *)

Lemma findSummarizerProvider_Some providers name q :
  findSummarizerProvider providers name = Some q →
  q ∈ providers ∧ Name q = name ∧ Enabled q = true.
Proof.
  induction providers as [|p ps IH]; [done|]. cbn [findSummarizerProvider].
  destruct (bool_decide (Name p = name) && Enabled p) eqn:Hp.
  - intros [= <-]. apply andb_true_iff in Hp as [Hn%bool_decide_eq_true He].
    split; [apply list_elem_of_here|done].
  - intros (? & ? & ?)%IH. split; [by apply list_elem_of_further|done].
Qed.

Lemma findSummarizerProvider_None providers name :
  findSummarizerProvider providers name = None ↔
  ¬ ∃ p, p ∈ providers ∧ Name p = name ∧ Enabled p = true.
Proof.
  induction providers as [|p ps IH]; cbn [findSummarizerProvider].
  - split; [|done]. intros _ (p & []%elem_of_nil & _).
  - destruct (bool_decide (Name p = name) && Enabled p) eqn:Hp.
    + apply andb_true_iff in Hp as [Hn%bool_decide_eq_true He].
      split; [done|]. intros []. exists p. split; [apply list_elem_of_here|done].
    + rewrite IH. apply andb_false_iff in Hp.
      split; intros Hno (q & Hq & Hn & He); apply Hno.
      * apply elem_of_cons in Hq as [->|Hq]; [|by exists q].
        destruct Hp as [Hp%bool_decide_eq_false|Hp]; congruence.
      * exists q. split; [by apply list_elem_of_further|done].
Qed.

(** C5.  [findSummarizerProvider] returns a provider of the list whose
    name is the requested one and which is enabled, whenever the list has
    such a provider, and nil exactly when it has none.  What fan-out
    recorded plays no part: whenever fan-out leaves some answer, [main]
    goes on to query the provider so selected, be it a key of [results]
    or of [errs]. *)
Theorem findSummarizerProvider_spec providers name :
  (∀ q, findSummarizerProvider providers name = Some q →
        q ∈ providers ∧ Name q = name ∧ Enabled q = true) ∧
  (is_Some (findSummarizerProvider providers name) ↔
     ∃ p, p ∈ providers ∧ Name p = name ∧ Enabled p = true) ∧
  (findSummarizerProvider providers name = None ↔
     ¬ ∃ p, p ∈ providers ∧ Name p = name ∧ Enabled p = true) ∧
  (∀ ctx prompt ch r e t q,
     queryProviders ctx providers prompt (schedule ch) = Some (r, e, t) →
     r ≠ ∅ →
     findSummarizerProvider providers name = Some q →
     ∃ out, main_fanout ctx providers prompt name ch
            = Some (out, t ++ [QueryEv (Name q)
                                 (synthesize (range (answers_seed ch) r))])).
Proof.
  split_and!.
  - apply findSummarizerProvider_Some.
  - split.
    + intros [q Hq]. exists q. by apply findSummarizerProvider_Some.
    + intros Hex. destruct (findSummarizerProvider providers name) eqn:Hf; [done|].
      by apply findSummarizerProvider_None in Hf.
  - apply findSummarizerProvider_None.
  - intros ctx prompt ch r e t q Hret Hr Hq.
    unfold main_fanout. rewrite Hret, main_after_fanout_nonempty, Hq by done.
    unfold summarizeAnswers.
    destruct (Query q ctx _ None); eauto.
Qed.

(** A provider that failed during fan-out is selected, and queried
    again, all the same; a name that is not in the list is not found. *)
Example summarizer_failed_in_fanout :
  main_fanout ctx0 sampleABC "q" "B"
    {| names_seed := 0; schedule := [2; 0; 1; 1; 0; 2]; answers_seed := 1 |}
  = Some (Fatal "Summarizer failed",
          [QueryEv "C" "q"; QueryEv "A" "q"; QueryEv "B" "q";
           QueryEv "B" (header +:+ "[A]: ans-A" +:+ nl +:+ "[C]: ans-C" +:+ nl)]).
Proof. vm_compute. reflexivity. Qed.

Example summarizer_unknown :
  main_fanout ctx0 sampleABC "q" "Z"
    {| names_seed := 0; schedule := [2; 0; 1; 1; 0; 2]; answers_seed := 1 |}
  = Some (Fatal "Summarizer provider not found or not enabled",
          [QueryEv "C" "q"; QueryEv "A" "q"; QueryEv "B" "q"]).
Proof. vm_compute. reflexivity. Qed.

(** ** Credentials *)

Lemma loadAPIKeys_from ToUpper environ (acc : gmap string string) names n :
  foldl (λ apiKeys name,
           <[name := Getenv environ (toEnvKey ToUpper name +:+ "_API_KEY")]> apiKeys)
        acc names !! n
  = if decide (n ∈ names)
    then Some (Getenv environ (toEnvKey ToUpper n +:+ "_API_KEY"))
    else acc !! n.
Proof.
  revert acc. induction names as [|x names IH]; intros acc; cbn [foldl].
  - rewrite decide_False; [done|apply not_elem_of_nil].
  - rewrite IH. destruct (decide (n ∈ names)) as [Hn|Hn].
    + rewrite decide_True; [done|by apply list_elem_of_further].
    + destruct (decide (n = x)) as [->|Hne].
      * rewrite lookup_insert_eq, decide_True; [done|apply list_elem_of_here].
      * rewrite lookup_insert_ne by done.
        rewrite decide_False; [done|]. by intros [?|?]%elem_of_cons.
Qed.

(** C10.  [loadAPIKeys] is total: for every list of names it returns a
    map whose keys are the names of the list, the value under a name
    being the value of the variable [ToUpper name ++ "_API_KEY"], and
    the empty string when that variable is unset. *)
Theorem loadAPIKeys_spec ToUpper environ names :
  dom (loadAPIKeys ToUpper environ names) = list_to_set names ∧
  (∀ n, n ∈ names →
     loadAPIKeys ToUpper environ names !! n
     = Some (default "" (environ !! (ToUpper n +:+ "_API_KEY")))) ∧
  (∀ n, n ∈ names → environ !! (ToUpper n +:+ "_API_KEY") = None →
     loadAPIKeys ToUpper environ names !! n = Some "").
Proof.
  assert (∀ n, loadAPIKeys ToUpper environ names !! n
               = if decide (n ∈ names)
                 then Some (default "" (environ !! (ToUpper n +:+ "_API_KEY")))
                 else None) as Hl.
  { intros n. unfold loadAPIKeys. rewrite loadAPIKeys_from.
    by rewrite lookup_empty. }
  split_and!.
  - apply set_eq. intros n. rewrite elem_of_dom, Hl, elem_of_list_to_set.
    destruct (decide (n ∈ names)); split; done.
  - intros n Hn. by rewrite Hl, decide_True.
  - intros n Hn Hunset. by rewrite Hl, decide_True, Hunset.
Qed.

Example loadAPIKeys_sample :
  loadAPIKeys ToUpperASCII {["OPENAI_API_KEY" := "sk-1"]} ["openai"; "gemini"; "openai"]
  = {["openai" := "sk-1"; "gemini" := ""]}.
Proof. vm_compute. reflexivity. Qed.

(** ** A single provider *)

Lemma queryProviders_single ctx p prompt sched :
  completes 1 sched = true →
  ∃ r e,
    queryProviders ctx [p] prompt sched = Some (r, e, [QueryEv (Name p) prompt]) ∧
    match Query p ctx prompt None with
    | inl answer => r = {[Name p := answer]} ∧ e = ∅
    | inr err => r = ∅ ∧ e = {[Name p := err]}
    end.
Proof.
  intros Hc.
  returned Hc r e t Hret.
  pose proof (calls_once Hret) as Ht.
  apply Permutation_singleton_r in Ht. subst t.
  exists r, e. split; [done|].
  destruct (queryProviders_spec ctx prompt [p] sched r e _ (NoDup_singleton _) Hret)
    as [-> ->].
  unfold successes, failures. cbn [omap list_omap].
  destruct (Query p ctx prompt None); simpl; by rewrite ?insert_empty.
Qed.

Lemma main_fanout_single_calls ctx p prompt summarizer ch :
  completes 1 (schedule ch) = true →
  ∃ out t, main_fanout ctx [p] prompt summarizer ch
           = Some (out, QueryEv (Name p) prompt :: t).
Proof.
  intros Hc. destruct (queryProviders_single ctx p prompt _ Hc) as (r & e & Hret & _).
  unfold main_fanout. rewrite Hret.
  destruct (main_after_fanout ctx [p] summarizer (answers_seed ch) r) as [out t].
  by exists out, t.
Qed.

Lemma main_fanout_single ctx p prompt ch answer :
  Enabled p = true →
  Query p ctx prompt None = inl answer →
  completes 1 (schedule ch) = true →
  main_fanout ctx [p] prompt (Name p) ch
  = Some (match Query p ctx (header +:+ entry (Name p, answer)) None with
          | inl summary => Printed ["----- Final Verdict -----"; summary]
          | inr _ => Fatal "Summarizer failed"
          end,
          [QueryEv (Name p) prompt;
           QueryEv (Name p) (header +:+ entry (Name p, answer))]).
Proof.
  intros He Hq Hc.
  destruct (queryProviders_single ctx p prompt _ Hc) as (r & e & Hret & Hre).
  rewrite Hq in Hre. destruct Hre as [-> ->].
  unfold main_fanout. rewrite Hret.
  rewrite main_after_fanout_nonempty by apply insert_non_empty.
  cbn [findSummarizerProvider].
  rewrite bool_decide_eq_true_2, He by done. cbn [andb].
  unfold summarizeAnswers. rewrite range_singleton, synthesize_singleton.
  by destruct (Query p ctx (header +:+ entry (Name p, answer)) None).
Qed.

Lemma synthesized_longer (prompt name answer : string) :
  String.length prompt ≤ String.length answer →
  header +:+ entry (name, answer) ≠ prompt.
Proof.
  intros Hlen Heq. apply (f_equal String.length) in Heq.
  unfold entry in Heq. rewrite !length_append in Heq. simpl in Heq. lia.
Qed.

(** C8, as amended.  In a run with a single enabled provider that
    succeeds and is the selected summarizer, [Query] is called twice on
    it: with the original prompt, then with the header followed by the
    one entry of its answer.  The two prompts differ exactly when the
    original prompt is not itself that text; they do whenever the answer
    is at least as long as the prompt. *)
Theorem single_provider_prompts ctx p prompt ch answer :
  Enabled p = true →
  Query p ctx prompt None = inl answer →
  completes 1 (schedule ch) = true →
  (∃ out, main_fanout ctx [p] prompt (Name p) ch
          = Some (out, [QueryEv (Name p) prompt;
                        QueryEv (Name p) (header +:+ entry (Name p, answer))])) ∧
  (prompts_differ (main_fanout ctx [p] prompt (Name p) ch) (Name p) ↔
     prompt ≠ header +:+ entry (Name p, answer)) ∧
  (String.length prompt ≤ String.length answer →
     prompts_differ (main_fanout ctx [p] prompt (Name p) ch) (Name p)).
Proof.
  intros He Hq Hc. pose proof (main_fanout_single ctx p prompt ch answer He Hq Hc) as Hm.
  assert (prompt ≠ header +:+ entry (Name p, answer) →
          prompts_differ (main_fanout ctx [p] prompt (Name p) ch) (Name p)) as Hd.
  { intros Hne. rewrite Hm. by eexists _, _, _. }
  split_and!.
  - rewrite Hm. by eexists.
  - split; [|done]. rewrite Hm.
    intros (out & p1 & p2 & [= _ <- <-] & Hne). done.
  - intros Hlen. apply Hd. intros Heq. by eapply synthesized_longer.
Qed.

Lemma single_provider_prompts_witness :
  (∃ out, main_fanout ctx0 [OpenAI {| enabled := true; apiKey := "" |}] "hi" "openai" choices0
          = Some (out, [QueryEv "openai" "hi";
                        QueryEv "openai"
                          (header +:+ entry ("openai", "OpenAI answer to: hi"))])) ∧
  (prompts_differ
     (main_fanout ctx0 [OpenAI {| enabled := true; apiKey := "" |}] "hi" "openai" choices0)
     "openai" ↔
   "hi" ≠ header +:+ entry ("openai", "OpenAI answer to: hi")) ∧
  (String.length "hi" ≤ String.length "OpenAI answer to: hi" →
     prompts_differ
       (main_fanout ctx0 [OpenAI {| enabled := true; apiKey := "" |}] "hi" "openai" choices0)
       "openai").
Proof.
  apply (single_provider_prompts ctx0 (OpenAI {| enabled := true; apiKey := "" |})
           "hi" choices0 "OpenAI answer to: hi").
  - reflexivity.
  - reflexivity.
  - reflexivity.
Defined.

(** The one provider answers ["x"] whatever it is asked, and is asked the
    very text that the summarizer is sent for that answer: both calls
    receive the same prompt. *)
Lemma same_prompt_twice :
  Enabled (always "A" (inl "x")) = true ∧
  Query (always "A" (inl "x")) ctx0 looped_prompt None = inl "x" ∧
  main_fanout ctx0 [always "A" (inl "x")] looped_prompt "A" choices0
    = Some (Printed ["----- Final Verdict -----"; "x"],
            [QueryEv "A" looped_prompt; QueryEv "A" looped_prompt]) ∧
  ¬ prompts_differ
      (main_fanout ctx0 [always "A" (inl "x")] looped_prompt "A" choices0) "A".
Proof.
  assert (main_fanout ctx0 [always "A" (inl "x")] looped_prompt "A" choices0
    = Some (Printed ["----- Final Verdict -----"; "x"],
            [QueryEv "A" looped_prompt; QueryEv "A" looped_prompt])) as Hm.
  { vm_compute. reflexivity. }
  split_and!; try done.
  rewrite Hm. intros (out & p1 & p2 & [= _ <- <-] & Hne). done.
Qed.

(** With the provider of the repository the two prompts always differ:
    its answer contains the prompt. *)
Lemma openai_prompts_differ ctx o prompt ch :
  enabled o = true →
  completes 1 (schedule ch) = true →
  prompts_differ (main_fanout ctx [OpenAI o] prompt "openai" ch) "openai".
Proof.
  intros He Hc.
  pose proof (main_fanout_single ctx (OpenAI o) prompt ch
                ("OpenAI answer to: " +:+ prompt) He eq_refl Hc) as Hm.
  change (Name (OpenAI o)) with "openai" in Hm. rewrite Hm.
  eexists _, _, _. split; [done|].
  intros Heq. symmetry in Heq. revert Heq. apply synthesized_longer.
  rewrite length_append. lia.
Qed.

(** ** Configuration and credentials in [main] *)

Lemma getEnabledProviders_openai cfg apiKeys :
  getEnabledProviders cfg apiKeys
  = if default false (EnabledProviders cfg !! "openai")
    then [OpenAI {| enabled := true; apiKey := default "" (apiKeys !! "openai") |}]
    else [].
Proof.
  unfold getEnabledProviders, allProviders. cbn [foldl Enabled OpenAI enabled].
  by destruct (default false (EnabledProviders cfg !! "openai")).
Qed.

(** C6, as amended.  With the logger set up and a non-empty prompt: a
    configuration file that cannot be loaded, and a [.env] file that
    cannot be loaded, are fatal errors that end the run before any
    [Query]; so is a configuration that does not enable ["openai"].
    Otherwise the run queries ["openai"] with the prompt, whatever the
    environment holds: a credential that is missing is read as the empty
    key and is no error. *)
Theorem main_config_phase ToUpper w f ch :
  logger_Build w (flag_debug f) = None →
  flag_prompt f ≠ "" →
  completes 1 (schedule ch) = true →
  match loadConfig w (flag_config f), godotenv_Load w (flag_env f) with
  | inr _, _ => main ToUpper w f ch = Some (Fatal "Failed to load config", [])
  | inl _, inr _ => main ToUpper w f ch = Some (Fatal "Failed to load .env file", [])
  | inl cfg, inl environ =>
      if default false (EnabledProviders cfg !! "openai")
      then ∃ out t, main ToUpper w f ch
                    = Some (out, QueryEv "openai" (flag_prompt f) :: t)
      else main ToUpper w f ch = Some (Fatal "No enabled LLM providers", [])
  end.
Proof.
  intros Hlog Hprompt Hc. unfold main, setupLogger. rewrite Hlog.
  rewrite bool_decide_eq_false_2 by done.
  destruct (loadConfig w (flag_config f)) as [cfg|err]; [|done].
  destruct (godotenv_Load w (flag_env f)) as [environ|err]; [|done].
  rewrite getEnabledProviders_openai. cbn [EnabledProviders].
  destruct (default false (EnabledProviders cfg !! "openai")); [|done].
  rewrite bool_decide_eq_false_2 by done.
  apply (main_fanout_single_calls _ (OpenAI _) _ _ _ Hc).
Qed.

Lemma main_config_phase_witness :
  ∃ out t, main ToUpperASCII world_no_key flags_hi choices0
           = Some (out, QueryEv "openai" "hi" :: t).
Proof.
  apply (main_config_phase ToUpperASCII world_no_key flags_hi choices0).
  - reflexivity.
  - discriminate.
  - reflexivity.
Defined.

Example world_no_key_run :
  main ToUpperASCII world_no_key flags_hi choices0
  = Some (Printed ["----- Final Verdict -----";
                   "OpenAI answer to: " +:+ header +:+ "[openai]: OpenAI answer to: hi" +:+ nl],
          [QueryEv "openai" "hi";
           QueryEv "openai" (header +:+ "[openai]: OpenAI answer to: hi" +:+ nl)]).
Proof. vm_compute. reflexivity. Qed.

(** ["openai"] is enabled and [OPENAI_API_KEY] is unset, yet the run is
    not stopped: the provider is queried, twice, and a verdict printed. *)
Lemma missing_credential_not_fatal :
  ¬ missing_credential_is_fatal ToUpperASCII world_no_key flags_hi choices0.
Proof.
  intros Hclaim.
  destruct (Hclaim cfg_openai ∅ eq_refl eq_refl) as [msg Hmsg].
  - exists "openai". split; reflexivity.
  - rewrite world_no_key_run in Hmsg. discriminate.
Qed.

(** * Further properties of the code *)

(** ** Fan-out as a function of its arguments *)

(** X1.  For providers with pairwise distinct names and under every
    schedule that lets the barrier open, [queryProviders] returns the map
    of the answers of the providers that succeed and the map of the
    errors of those that fail: the two maps are the same under every
    interleaving, and only the order of the calls varies. *)
Theorem queryProviders_functional ctx providers prompt sched :
  NoDup (Name <$> providers) →
  completes (length providers) sched = true →
  ∃ t,
    queryProviders ctx providers prompt sched
      = Some (list_to_map (successes ctx prompt providers),
              list_to_map (failures ctx prompt providers), t) ∧
    t ≡ₚ query_event prompt <$> providers.
Proof.
  intros Hnd Hc. returned Hc r e t Hret.
  destruct (queryProviders_spec _ _ _ _ _ _ _ Hnd Hret) as [-> ->].
  exists t. split; [done|]. exact (calls_once Hret).
Qed.

Lemma queryProviders_functional_witness :
  ∃ t,
    queryProviders ctx0 sampleABC "q" [2; 0; 1; 1; 0; 2]
      = Some (list_to_map (successes ctx0 "q" sampleABC),
              list_to_map (failures ctx0 "q" sampleABC), t) ∧
    t ≡ₚ query_event "q" <$> sampleABC.
Proof.
  apply (queryProviders_functional ctx0 sampleABC "q" [2; 0; 1; 1; 0; 2]).
  - exact sampleABC_names.
  - reflexivity.
Defined.

(** ** Fan-out when names repeat *)

Lemma map_size_le_keys {V} (m : gmap string V) (l : list string) :
  (∀ n, is_Some (m !! n) → n ∈ l) → size m ≤ length l.
Proof.
  intros Hin. rewrite <- length_map_to_list.
  rewrite <- (length_fmap fst (map_to_list m)).
  apply submseteq_length, NoDup_submseteq; [apply NoDup_fst_map_to_list|].
  intros n ([n' v] & -> & Hnv%elem_of_map_to_list)%list_elem_of_fmap.
  apply Hin. by exists v.
Qed.

(** X2.  Whatever the names, distinct or not: under every schedule that
    lets the barrier open, the keys of the two maps together are the
    names of the providers, every recorded answer or error is the outcome
    of a provider of that name, and the two maps together hold at most
    one entry per provider. *)
Theorem queryProviders_cover ctx providers prompt sched :
  completes (length providers) sched = true →
  ∃ r e t,
    queryProviders ctx providers prompt sched = Some (r, e, t) ∧
    dom r ∪ dom e = list_to_set (Name <$> providers) ∧
    size r + size e ≤ length providers ∧
    (∀ n a, r !! n = Some a →
       ∃ p, p ∈ providers ∧ Name p = n ∧ Query p ctx prompt None = inl a) ∧
    (∀ n x, e !! n = Some x →
       ∃ p, p ∈ providers ∧ Name p = n ∧ Query p ctx prompt None = inr x).
Proof.
  intros Hc. returned Hc r e t Hret. exists r, e, t.
  split_and!; [done|..|exact (results_sound Hret)|exact (errs_sound Hret)].
  - apply set_eq. intros n.
    rewrite elem_of_union, !elem_of_dom, elem_of_list_to_set, list_elem_of_fmap.
    split.
    + intros [[a Ha]|[x Hx]].
      * destruct (results_sound Hret n a Ha) as (p & ? & ? & _). by exists p.
      * destruct (errs_sound Hret n x Hx) as (p & ? & ? & _). by exists p.
    + intros (p & -> & Hp). pose proof (outcome_recorded Hret p Hp) as Hrec.
      destruct (Query p ctx prompt None); [by left|by right].
  - rewrite <- (successes_failures_length ctx prompt providers).
    apply Nat.add_le_mono.
    + rewrite <- (length_fmap fst). apply map_size_le_keys.
      intros n [a Ha]. apply list_elem_of_fmap. exists (n, a).
      split; [done|]. apply elem_of_successes. exact (results_sound Hret n a Ha).
    + rewrite <- (length_fmap fst). apply map_size_le_keys.
      intros n [x Hx]. apply list_elem_of_fmap. exists (n, x).
      split; [done|]. apply elem_of_failures. exact (errs_sound Hret n x Hx).
Qed.

Lemma queryProviders_cover_witness :
  ∃ r e t,
    queryProviders ctx0 [always "A" (inl "1"); always "A" (inr "down"); always "A" (inl "2")]
      "q" [0; 1; 2; 2; 1; 0] = Some (r, e, t) ∧
    dom r ∪ dom e
      = list_to_set (Name <$> [always "A" (inl "1"); always "A" (inr "down");
                               always "A" (inl "2")]) ∧
    size r + size e ≤ 3 ∧
    (∀ n a, r !! n = Some a →
       ∃ p, p ∈ [always "A" (inl "1"); always "A" (inr "down"); always "A" (inl "2")] ∧
            Name p = n ∧ Query p ctx0 "q" None = inl a) ∧
    (∀ n x, e !! n = Some x →
       ∃ p, p ∈ [always "A" (inl "1"); always "A" (inr "down"); always "A" (inl "2")] ∧
            Name p = n ∧ Query p ctx0 "q" None = inr x).
Proof.
  apply (queryProviders_cover ctx0
           [always "A" (inl "1"); always "A" (inr "down"); always "A" (inl "2")]
           "q" [0; 1; 2; 2; 1; 0]).
  reflexivity.
Defined.

(** Three providers of one name: the name is a key of both maps, and two
    entries are kept for three providers. *)
Example repeated_name_run :
  queryProviders ctx0 [always "A" (inl "1"); always "A" (inr "down"); always "A" (inl "2")]
    "q" [0; 1; 2; 2; 1; 0]
  = Some ({["A" := "1"]}, {["A" := "down"]},
          [QueryEv "A" "q"; QueryEv "A" "q"; QueryEv "A" "q"]).
Proof. vm_compute. reflexivity. Qed.

(** X3.  Two providers of the same name that both answer: which answer
    [results] keeps depends on the interleaving, the goroutine that
    records last overwrites the other. *)
Theorem last_writer_wins ctx p q prompt a b :
  Name p = Name q →
  Query p ctx prompt None = inl a →
  Query q ctx prompt None = inl b →
  queryProviders ctx [p; q] prompt [0; 1; 0; 1]
    = Some ({[Name p := b]}, ∅, [query_event prompt p; query_event prompt q]) ∧
  queryProviders ctx [p; q] prompt [0; 1; 1; 0]
    = Some ({[Name p := a]}, ∅, [query_event prompt p; query_event prompt q]).
Proof.
  intros Hn Hp Hq. unfold queryProviders, run. cbn [foldl].
  unfold step, query_event. cbn. rewrite Hp, Hq. cbn. rewrite <- Hn.
  by rewrite !insert_insert_eq, !insert_empty.
Qed.

Lemma last_writer_wins_witness :
  queryProviders ctx0 [always "A" (inl "1"); always "A" (inl "2")] "q" [0; 1; 0; 1]
    = Some ({["A" := "2"]}, ∅, [QueryEv "A" "q"; QueryEv "A" "q"]) ∧
  queryProviders ctx0 [always "A" (inl "1"); always "A" (inl "2")] "q" [0; 1; 1; 0]
    = Some ({["A" := "1"]}, ∅, [QueryEv "A" "q"; QueryEv "A" "q"]).
Proof.
  apply (last_writer_wins ctx0 (always "A" (inl "1")) (always "A" (inl "2")) "q" "1" "2").
  - reflexivity.
  - reflexivity.
  - reflexivity.
Defined.

(** ** Once the barrier is open *)

Lemma step_settled ctx providers prompt st i :
  length (goroutines st) = length providers →
  joined st = true →
  step ctx providers prompt st i = st.
Proof.
  intros Hlen Hj. unfold step.
  destruct (providers !! i) as [p|] eqn:Hp; [|done].
  destruct (goroutines st !! i) as [g|] eqn:Hg; [|done].
  unfold joined in Hj. apply Is_true_true, forallb_True in Hj.
  rewrite Forall_lookup in Hj. specialize (Hj i g Hg). by destruct g.
Qed.

(** X4.  Once every goroutine has recorded its outcome, nothing changes
    any more: whatever is scheduled after a schedule that lets the
    barrier open, [queryProviders] returns the same maps and the same
    calls.  No provider is asked again and no entry is rewritten. *)
Theorem queryProviders_settled ctx providers prompt sched extra :
  completes (length providers) sched = true →
  queryProviders ctx providers prompt (sched ++ extra)
  = queryProviders ctx providers prompt sched.
Proof.
  intros Hc. rewrite <- (joined_completes ctx providers prompt) in Hc.
  assert (run ctx providers prompt (sched ++ extra) = run ctx providers prompt sched)
    as Hrun; [|unfold queryProviders; by rewrite Hrun].
  unfold run at 1. rewrite foldl_app. fold (run ctx providers prompt sched).
  pose proof (inv_length _ _ _ _ (fan_inv_run ctx providers prompt sched)) as Hlen.
  revert Hc Hlen. generalize (run ctx providers prompt sched). intros st Hj Hlen.
  induction extra as [|i extra IH]; [done|].
  cbn [foldl]. by rewrite step_settled.
Qed.

Lemma queryProviders_settled_witness :
  queryProviders ctx0 sampleABC "q" ([2; 0; 1; 1; 0; 2] ++ [1; 1; 7; 0])
  = queryProviders ctx0 sampleABC "q" [2; 0; 1; 1; 0; 2].
Proof.
  apply (queryProviders_settled ctx0 sampleABC "q" [2; 0; 1; 1; 0; 2] [1; 1; 7; 0]).
  reflexivity.
Defined.

(** ** The run after fan-out *)

Lemma results_nonempty ctx providers prompt sched r e t :
  queryProviders ctx providers prompt sched = Some (r, e, t) →
  r ≠ ∅ ↔ ∃ p, p ∈ providers ∧ succeeded (Query p ctx prompt None) = true.
Proof.
  intros Hret. split.
  - intros Hr. destruct (map_choose r Hr) as (n & a & Ha).
    destruct (results_sound Hret n a Ha) as (p & Hp & _ & Hq).
    exists p. split; [done|]. by rewrite Hq.
  - intros (p & Hp & Hs) ->. pose proof (outcome_recorded Hret p Hp) as Hrec.
    destruct (Query p ctx prompt None); [|done].
    destruct Hrec as [a Ha]. by rewrite lookup_empty in Ha.
Qed.

(** X5.  Partial success is enough, and there is no fallback: when at
    least one provider answers and the summarizer resolves, then under
    every schedule that lets the barrier open [main] makes exactly one
    more call, to the summarizer, with the prompt synthesized from
    [results]; it prints the banner and the summarizer's answer when that
    call succeeds and ends with ["Summarizer failed"] when it fails.  The
    failures of other providers play no part. *)
Theorem main_fanout_summarizes ctx providers prompt summarizer ch p q :
  completes (length providers) (schedule ch) = true →
  p ∈ providers →
  succeeded (Query p ctx prompt None) = true →
  findSummarizerProvider providers summarizer = Some q →
  ∃ r e t,
    queryProviders ctx providers prompt (schedule ch) = Some (r, e, t) ∧
    main_fanout ctx providers prompt summarizer ch
    = Some (match Query q ctx (synthesize (range (answers_seed ch) r)) None with
            | inl summary => Printed ["----- Final Verdict -----"; summary]
            | inr _ => Fatal "Summarizer failed"
            end,
            t ++ [QueryEv (Name q) (synthesize (range (answers_seed ch) r))]).
Proof.
  intros Hc Hp Hs Hq. returned Hc r e t Hret. exists r, e, t. split; [done|].
  assert (r ≠ ∅) as Hr by (apply (results_nonempty _ _ _ _ _ _ _ Hret); eauto).
  unfold main_fanout. rewrite Hret, main_after_fanout_nonempty, Hq by done.
  unfold summarizeAnswers.
  by destruct (Query q ctx (synthesize (range (answers_seed ch) r)) None).
Qed.

Lemma main_fanout_summarizes_witness :
  ∃ r e t,
    queryProviders ctx0 sampleABC "q" [2; 0; 1; 1; 0; 2] = Some (r, e, t) ∧
    main_fanout ctx0 sampleABC "q" "B"
      {| names_seed := 0; schedule := [2; 0; 1; 1; 0; 2]; answers_seed := 1 |}
    = Some (match Query (always "B" (inr "timeout")) ctx0 (synthesize (range 1 r)) None with
            | inl summary => Printed ["----- Final Verdict -----"; summary]
            | inr _ => Fatal "Summarizer failed"
            end,
            t ++ [QueryEv "B" (synthesize (range 1 r))]).
Proof.
  apply (main_fanout_summarizes ctx0 sampleABC "q" "B"
           {| names_seed := 0; schedule := [2; 0; 1; 1; 0; 2]; answers_seed := 1 |}
           (always "A" (inl "ans-A")) (always "B" (inr "timeout"))).
  - reflexivity.
  - apply list_elem_of_here.
  - reflexivity.
  - reflexivity.
Defined.

(** X6.  A summarizer name that does not resolve is found out only after
    fan-out: when at least one provider answers and no enabled provider
    bears the requested name, then under every schedule that lets the
    barrier open the run ends with the fatal error of the selector, and
    by then every provider has been queried once with the prompt. *)
Theorem unresolved_summarizer_after_fanout ctx providers prompt summarizer ch p :
  completes (length providers) (schedule ch) = true →
  p ∈ providers →
  succeeded (Query p ctx prompt None) = true →
  findSummarizerProvider providers summarizer = None →
  ∃ t,
    main_fanout ctx providers prompt summarizer ch
    = Some (Fatal "Summarizer provider not found or not enabled", t) ∧
    t ≡ₚ query_event prompt <$> providers.
Proof.
  intros Hc Hp Hs Hq.
  destruct (proj2 (queryProviders_returns ctx providers prompt (schedule ch)) Hc)
    as [[[r e] t] Hret].
  exists t. split; [|exact (calls_once Hret)].
  assert (r ≠ ∅) as Hr by (apply (results_nonempty _ _ _ _ _ _ _ Hret); eauto).
  unfold main_fanout. rewrite Hret, main_after_fanout_nonempty, Hq by done.
  by rewrite app_nil_r.
Qed.

Lemma unresolved_summarizer_after_fanout_witness :
  ∃ t,
    main_fanout ctx0 [always "A" (inl "ans-A"); disabled "B"] "q" "B"
      {| names_seed := 0; schedule := [1; 0; 0; 1]; answers_seed := 0 |}
    = Some (Fatal "Summarizer provider not found or not enabled", t) ∧
    t ≡ₚ query_event "q" <$> [always "A" (inl "ans-A"); disabled "B"].
Proof.
  apply (unresolved_summarizer_after_fanout ctx0
           [always "A" (inl "ans-A"); disabled "B"] "q" "B"
           {| names_seed := 0; schedule := [1; 0; 0; 1]; answers_seed := 0 |}
           (always "A" (inl "ans-A"))).
  - reflexivity.
  - apply list_elem_of_here.
  - reflexivity.
  - reflexivity.
Defined.

(** X7.  The budget of calls: under every schedule that lets the barrier
    open, a run over [n] providers makes [n] calls with the original
    prompt, in some order, and after them at most one more; it makes that
    one exactly when some provider answered and the summarizer resolves.
    Nothing is retried. *)
Theorem main_fanout_budget ctx providers prompt summarizer ch :
  completes (length providers) (schedule ch) = true →
  ∃ out t t',
    main_fanout ctx providers prompt summarizer ch = Some (out, t ++ t') ∧
    t ≡ₚ query_event prompt <$> providers ∧
    length t' ≤ 1 ∧
    (length t' = 1 ↔
       (∃ p, p ∈ providers ∧ succeeded (Query p ctx prompt None) = true) ∧
       is_Some (findSummarizerProvider providers summarizer)).
Proof.
  intros Hc.
  destruct (proj2 (queryProviders_returns ctx providers prompt (schedule ch)) Hc)
    as [[[r e] t] Hret].
  pose proof (results_nonempty _ _ _ _ _ _ _ Hret) as Hne.
  pose proof (calls_once Hret) as Ht.
  unfold main_fanout. rewrite Hret.
  destruct (decide (r = ∅)) as [->|Hr].
  - rewrite main_after_fanout_empty. exists (Fatal "No providers returned an answer"), t, [].
    split_and!; [done|done|simpl; lia|]. split; [done|].
    intros [Hs _]. by apply Hne in Hs.
  - rewrite main_after_fanout_nonempty by done.
    destruct (findSummarizerProvider providers summarizer) as [q|] eqn:Hq.
    + unfold summarizeAnswers.
      destruct (Query q ctx (synthesize (range (answers_seed ch) r)) None);
        eexists _, t, [_]; (split_and!; [done|done|simpl; lia|]);
        (split; [intros _; split; [by apply Hne|by eexists]|done]).
    + exists (Fatal "Summarizer provider not found or not enabled"), t, [].
      split_and!; [done|done|simpl; lia|]. split; [done|].
      intros [_ [? ?]]. done.
Qed.

Lemma main_fanout_budget_witness :
  ∃ out t t',
    main_fanout ctx0 sampleABC "q" "A"
      {| names_seed := 0; schedule := [2; 0; 1; 1; 0; 2]; answers_seed := 1 |}
      = Some (out, t ++ t') ∧
    t ≡ₚ query_event "q" <$> sampleABC ∧
    length t' ≤ 1 ∧
    (length t' = 1 ↔
       (∃ p, p ∈ sampleABC ∧ succeeded (Query p ctx0 "q" None) = true) ∧
       is_Some (findSummarizerProvider sampleABC "A")).
Proof.
  apply (main_fanout_budget ctx0 sampleABC "q" "A"
           {| names_seed := 0; schedule := [2; 0; 1; 1; 0; 2]; answers_seed := 1 |}).
  reflexivity.
Defined.

(** ** The selector, further *)

(** X8.  [findSummarizerProvider] returns the first match in the order
    of the list: no provider before the one returned has the requested
    name and is enabled. *)
Theorem findSummarizerProvider_first providers name q :
  findSummarizerProvider providers name = Some q →
  ∃ before after,
    providers = before ++ q :: after ∧
    ∀ p, p ∈ before → ¬ (Name p = name ∧ Enabled p = true).
Proof.
  induction providers as [|p ps IH]; [done|]. cbn [findSummarizerProvider].
  destruct (bool_decide (Name p = name) && Enabled p) eqn:Hp.
  - intros [= <-]. exists [], ps. split; [done|]. by intros ? ?%elem_of_nil.
  - intros (before & after & -> & Hno)%IH.
    exists (p :: before), after. split; [done|].
    intros p' [->|Hp']%elem_of_cons; [|by apply Hno].
    intros [Hn He]. apply andb_false_iff in Hp as [Hp%bool_decide_eq_false|Hp];
      congruence.
Qed.

Lemma findSummarizerProvider_first_witness :
  ∃ before after,
    [disabled "B"; always "A" (inl "x"); always "B" (inl "1"); always "B" (inl "2")]
      = before ++ always "B" (inl "1") :: after ∧
    ∀ p, p ∈ before → ¬ (Name p = "B" ∧ Enabled p = true).
Proof.
  apply (findSummarizerProvider_first
           [disabled "B"; always "A" (inl "x"); always "B" (inl "1"); always "B" (inl "2")]
           "B" (always "B" (inl "1"))).
  reflexivity.
Defined.

(** X9.  On a list of enabled providers, such as [main] passes, the test
    of [Enabled] in the selector never decides: a provider is found
    exactly when the requested name is the name of some provider of the
    list. *)
Theorem findSummarizerProvider_enabled_list providers name :
  (∀ p, p ∈ providers → Enabled p = true) →
  is_Some (findSummarizerProvider providers name) ↔ name ∈ Name <$> providers.
Proof.
  intros Hen. rewrite list_elem_of_fmap. split.
  - intros [q (Hq & <- & _)%findSummarizerProvider_Some]. by exists q.
  - intros (p & -> & Hp).
    destruct (findSummarizerProvider providers (Name p)) eqn:Hf; [done|].
    apply findSummarizerProvider_None in Hf. destruct Hf.
    exists p. split_and!; [done|done|by apply Hen].
Qed.

Lemma findSummarizerProvider_enabled_list_witness :
  is_Some (findSummarizerProvider sampleABC "C") ↔ "C" ∈ Name <$> sampleABC.
Proof.
  apply (findSummarizerProvider_enabled_list sampleABC "C").
  intros p Hp.
  apply elem_of_cons in Hp as [->|Hp]; [reflexivity|].
  apply elem_of_cons in Hp as [->|Hp]; [reflexivity|].
  apply elem_of_cons in Hp as [->|Hp]; [reflexivity|].
  by apply elem_of_nil in Hp.
Defined.

(** ** The registry *)

(** X10.  [getEnabledProviders] returns the OpenAI provider, and nothing
    else, when the configuration maps ["openai"] to true; it returns the
    empty list when ["openai"] is mapped to false or is not a key at all.
    No other key of the configuration enables anything.  Every provider
    returned is enabled, and the names returned are distinct. *)
Theorem getEnabledProviders_cases cfg apiKeys :
  (EnabledProviders cfg !! "openai" = Some true →
     getEnabledProviders cfg apiKeys = [OpenAI (openai_struct cfg apiKeys)] ∧
     Name <$> getEnabledProviders cfg apiKeys = ["openai"]) ∧
  (EnabledProviders cfg !! "openai" ≠ Some true →
     getEnabledProviders cfg apiKeys = []) ∧
  (∀ p, p ∈ getEnabledProviders cfg apiKeys → Enabled p = true) ∧
  NoDup (Name <$> getEnabledProviders cfg apiKeys).
Proof.
  unfold getEnabledProviders, allProviders, openai_struct.
  cbn [foldl Enabled OpenAI enabled].
  destruct (EnabledProviders cfg !! "openai") as [[|]|] eqn:Hc; cbn.
  - split_and!; [done|done| |apply NoDup_singleton].
    by intros p ->%list_elem_of_singleton.
  - split_and!; [done|done| |apply NoDup_nil_2]. by intros p ?%elem_of_nil.
  - split_and!; [done|done| |apply NoDup_nil_2]. by intros p ?%elem_of_nil.
Qed.

(** X11.  Selector after registry: among the providers that [main] gets
    from [getEnabledProviders], a summarizer is found exactly when the
    requested name is ["openai"] and the configuration maps ["openai"] to
    true. *)
Theorem findSummarizerProvider_registry cfg apiKeys name :
  is_Some (findSummarizerProvider (getEnabledProviders cfg apiKeys) name) ↔
  name = "openai" ∧ EnabledProviders cfg !! "openai" = Some true.
Proof.
  rewrite getEnabledProviders_openai.
  destruct (EnabledProviders cfg !! "openai") as [[|]|] eqn:Hc; cbn.
  - destruct (bool_decide ("openai" = name)) eqn:Hn; cbn.
    + apply bool_decide_eq_true in Hn. split; [done|eauto].
    + apply bool_decide_eq_false in Hn. split; [by intros [? ?]|].
      intros [-> _]. done.
  - split; [by intros [? ?]|by intros [_ ?]].
  - split; [by intros [? ?]|by intros [_ ?]].
Qed.

(** ** Credentials, further *)

(** X12.  [loadAPIKeys] depends on which names the list holds, not on
    their order nor on repetitions: two lists with the same members give
    the same map. *)
Theorem loadAPIKeys_same_names ToUpper environ names1 names2 :
  (∀ n, n ∈ names1 ↔ n ∈ names2) →
  loadAPIKeys ToUpper environ names1 = loadAPIKeys ToUpper environ names2.
Proof.
  intros Hsame. apply map_eq. intros n. unfold loadAPIKeys.
  rewrite !loadAPIKeys_from.
  destruct (decide (n ∈ names1)) as [H1|H1], (decide (n ∈ names2)) as [H2|H2];
    try done; by apply Hsame in H1 || by apply Hsame in H2.
Qed.

Lemma loadAPIKeys_same_names_witness :
  loadAPIKeys ToUpperASCII {["OPENAI_API_KEY" := "sk-1"]} ["openai"; "gemini"; "openai"]
  = loadAPIKeys ToUpperASCII {["OPENAI_API_KEY" := "sk-1"]} ["gemini"; "openai"].
Proof.
  apply (loadAPIKeys_same_names ToUpperASCII {["OPENAI_API_KEY" := "sk-1"]}
           ["openai"; "gemini"; "openai"] ["gemini"; "openai"]).
  intros n. rewrite !elem_of_cons, elem_of_nil. tauto.
Defined.

(** X13.  The key that [main] hands to the OpenAI provider: the names
    given to [loadAPIKeys] are the keys of the configuration, so the key
    is the value of the variable [ToUpper "openai" ++ "_API_KEY"] when
    ["openai"] is a key of the configuration, be it mapped to true or to
    false, and the empty string when it is not; the order in which the
    configuration is ranged over plays no part. *)
Theorem openai_key_wiring ToUpper environ cfg seed :
  allProviders cfg
    (loadAPIKeys ToUpper environ (range seed (EnabledProviders cfg)).*1)
  = [OpenAI (openai_struct cfg
       (loadAPIKeys ToUpper environ (range seed (EnabledProviders cfg)).*1))] ∧
  apiKey (openai_struct cfg
            (loadAPIKeys ToUpper environ (range seed (EnabledProviders cfg)).*1))
  = if decide (is_Some (EnabledProviders cfg !! "openai"))
    then Getenv environ (ToUpper "openai" +:+ "_API_KEY")
    else "".
Proof.
  split; [done|]. cbn [openai_struct apiKey]. unfold loadAPIKeys.
  rewrite loadAPIKeys_from, lookup_empty.
  assert ("openai" ∈ (range seed (EnabledProviders cfg)).*1
          ↔ is_Some (EnabledProviders cfg !! "openai")) as Hin.
  { rewrite list_elem_of_fmap. split.
    - intros ([n b] & -> & Hb%elem_of_range). by exists b.
    - intros [b Hb]. exists ("openai", b). split; [done|]. by apply elem_of_range. }
  destruct (decide ("openai" ∈ _)) as [H1|H1],
           (decide (is_Some (EnabledProviders cfg !! "openai"))) as [H2|H2];
    try done; by apply Hin in H1 || by apply Hin in H2.
Qed.

(** A configuration that switches ["openai"] off still has its key read;
    one that does not mention ["openai"] leaves the key empty. *)
Example openai_key_samples :
  apiKey (openai_struct {| EnabledProviders := {["openai" := false]}; Debug := false |}
            (loadAPIKeys ToUpperASCII {["OPENAI_API_KEY" := "sk-1"]} ["openai"])) = "sk-1" ∧
  apiKey (openai_struct {| EnabledProviders := {["gemini" := true]}; Debug := false |}
            (loadAPIKeys ToUpperASCII {["OPENAI_API_KEY" := "sk-1"]} ["gemini"])) = "".
Proof. split; vm_compute; reflexivity. Qed.

(** ** The length of the synthesized prompt *)

Lemma entry_length_spec e : String.length (entry e) = entry_length e.
Proof.
  unfold entry, entry_length. rewrite !length_append. unfold nl. simpl. lia.
Qed.

Lemma synthesize_length visited :
  String.length (synthesize visited)
  = String.length header + sum_list_with entry_length visited.
Proof.
  unfold synthesize. generalize header.
  induction visited as [|x l IH]; intros acc; cbn [foldl sum_list_with]; [lia|].
  rewrite IH, length_append, entry_length_spec. lia.
Qed.

(** X14.  The prompt that [summarizeAnswers] sends is the 51 characters
    of the header followed, per answer, by the name, the answer and five
    characters more; its length is the same in whatever order the
    answers are ranged over, and for no answer at all the prompt is the
    header alone. *)
Theorem synthesized_prompt_length (answers : gmap string string) seed :
  String.length (synthesize (range seed answers))
  = 51 + sum_list_with entry_length (map_to_list answers) ∧
  synthesize (range seed (∅ : gmap string string)) = header.
Proof.
  split.
  - rewrite synthesize_length. by rewrite range_Permutation.
  - assert (range seed (∅ : gmap string string) = []) as ->; [|done].
    apply Permutation_nil_r. by rewrite range_Permutation, map_to_list_empty.
Qed.

(** ** Whole runs of [main] *)

Lemma main_fanout_single_unresolved ctx p prompt summarizer ch answer :
  Query p ctx prompt None = inl answer →
  Name p ≠ summarizer →
  completes 1 (schedule ch) = true →
  main_fanout ctx [p] prompt summarizer ch
  = Some (Fatal "Summarizer provider not found or not enabled",
          [QueryEv (Name p) prompt]).
Proof.
  intros Hq Hn Hc.
  destruct (queryProviders_single ctx p prompt _ Hc) as (r & e & Hret & Hre).
  rewrite Hq in Hre. destruct Hre as [-> ->].
  unfold main_fanout. rewrite Hret.
  rewrite main_after_fanout_nonempty by apply insert_non_empty.
  cbn [findSummarizerProvider]. by rewrite bool_decide_eq_false_2 by done.
Qed.

Lemma main_fanout_blocked ctx providers prompt summarizer ch :
  completes (length providers) (schedule ch) = false →
  main_fanout ctx providers prompt summarizer ch = None.
Proof.
  intros Hc. unfold main_fanout.
  destruct (queryProviders ctx providers prompt (schedule ch)) eqn:Hret; [|done].
  assert (is_Some (queryProviders ctx providers prompt (schedule ch))) as Hs
    by (by rewrite Hret).
  apply queryProviders_returns in Hs. congruence.
Qed.

(** [main], case by case, in terms of what it is given. *)
Lemma main_cases ToUpper w f ch :
  main ToUpper w f ch
  = match logger_Build w (flag_debug f) with
    | Some err => Some (LoggerSetupFailed err, [])
    | None =>
      if bool_decide (flag_prompt f = "") then Some (Fatal "Prompt is required", [])
      else match loadConfig w (flag_config f) with
      | inr _ => Some (Fatal "Failed to load config", [])
      | inl cfg =>
        match godotenv_Load w (flag_env f) with
        | inr _ => Some (Fatal "Failed to load .env file", [])
        | inl _ =>
          if default false (EnabledProviders cfg !! "openai") then
            if completes 1 (schedule ch) then
              if bool_decide (flag_summarizer f = "openai") then
                Some (Printed ["----- Final Verdict -----";
                               "OpenAI answer to: " +:+ header +:+
                                 entry ("openai", "OpenAI answer to: " +:+ flag_prompt f)],
                      [QueryEv "openai" (flag_prompt f);
                       QueryEv "openai"
                         (header +:+
                            entry ("openai", "OpenAI answer to: " +:+ flag_prompt f))])
              else
                Some (Fatal "Summarizer provider not found or not enabled",
                      [QueryEv "openai" (flag_prompt f)])
            else None
          else Some (Fatal "No enabled LLM providers", [])
        end
      end
    end.
Proof.
  unfold main, setupLogger.
  destruct (logger_Build w (flag_debug f)); [done|].
  destruct (bool_decide (flag_prompt f = "")); [done|].
  destruct (loadConfig w (flag_config f)) as [cfg|err]; [|done].
  destruct (godotenv_Load w (flag_env f)) as [environ|err]; [|done].
  rewrite getEnabledProviders_openai. cbn [EnabledProviders].
  destruct (default false (EnabledProviders cfg !! "openai")); [|done].
  rewrite bool_decide_eq_false_2 by done.
  destruct (completes 1 (schedule ch)) eqn:Hc;
    [|by apply main_fanout_blocked].
  destruct (bool_decide (flag_summarizer f = "openai")) eqn:Hs.
  - apply bool_decide_eq_true in Hs. rewrite Hs.
    by rewrite (main_fanout_single _ (OpenAI _) (flag_prompt f) ch
                  ("OpenAI answer to: " +:+ flag_prompt f)).
  - apply bool_decide_eq_false in Hs.
    by rewrite (main_fanout_single_unresolved _ (OpenAI _) (flag_prompt f) _ ch
                  ("OpenAI answer to: " +:+ flag_prompt f)).
Qed.

(** X15.  The run that succeeds: with the logger set up, a non-empty
    prompt, a configuration that maps ["openai"] to true, a [.env] file
    that loads and the summarizer ["openai"], [main] under every schedule
    that lets the barrier open queries ["openai"] twice and prints the
    banner and, as the verdict, the OpenAI answer to the header followed
    by the one entry ["[openai]: OpenAI answer to: "] and the prompt.
    Neither the environment nor any order left open plays a part. *)
Theorem main_verdict ToUpper w f ch cfg environ :
  logger_Build w (flag_debug f) = None →
  flag_prompt f ≠ "" →
  loadConfig w (flag_config f) = inl cfg →
  EnabledProviders cfg !! "openai" = Some true →
  godotenv_Load w (flag_env f) = inl environ →
  flag_summarizer f = "openai" →
  completes 1 (schedule ch) = true →
  main ToUpper w f ch
  = Some (Printed ["----- Final Verdict -----";
                   "OpenAI answer to: " +:+ header +:+
                     "[openai]: OpenAI answer to: " +:+ flag_prompt f +:+ nl],
          [QueryEv "openai" (flag_prompt f);
           QueryEv "openai"
             (header +:+ "[openai]: OpenAI answer to: " +:+ flag_prompt f +:+ nl)]).
Proof.
  intros Hlog Hprompt Hcfg Hen Henv Hsum Hc.
  rewrite main_cases, Hlog, Hcfg, Henv, Hen, Hc, Hsum.
  by rewrite bool_decide_eq_false_2 by done.
Qed.

Lemma main_verdict_witness :
  main ToUpperASCII world_no_key flags_hi choices0
  = Some (Printed ["----- Final Verdict -----";
                   "OpenAI answer to: " +:+ header +:+
                     "[openai]: OpenAI answer to: " +:+ "hi" +:+ nl],
          [QueryEv "openai" "hi";
           QueryEv "openai" (header +:+ "[openai]: OpenAI answer to: " +:+ "hi" +:+ nl)]).
Proof.
  apply (main_verdict ToUpperASCII world_no_key flags_hi choices0 cfg_openai ∅).
  - reflexivity.
  - discriminate.
  - reflexivity.
  - reflexivity.
  - reflexivity.
  - reflexivity.
  - reflexivity.
Defined.

(** X16.  A summarizer other than ["openai"]: under the same conditions
    but with another summarizer name, [main] ends with the fatal error of
    the selector, and it does so after having queried ["openai"] with the
    prompt. *)
Theorem main_unknown_summarizer ToUpper w f ch cfg environ :
  logger_Build w (flag_debug f) = None →
  flag_prompt f ≠ "" →
  loadConfig w (flag_config f) = inl cfg →
  EnabledProviders cfg !! "openai" = Some true →
  godotenv_Load w (flag_env f) = inl environ →
  flag_summarizer f ≠ "openai" →
  completes 1 (schedule ch) = true →
  main ToUpper w f ch
  = Some (Fatal "Summarizer provider not found or not enabled",
          [QueryEv "openai" (flag_prompt f)]).
Proof.
  intros Hlog Hprompt Hcfg Hen Henv Hsum Hc.
  rewrite main_cases, Hlog, Hcfg, Henv, Hen, Hc.
  by rewrite !bool_decide_eq_false_2 by done.
Qed.

Lemma main_unknown_summarizer_witness :
  main ToUpperASCII world_no_key
    {| flag_prompt := "hi"; flag_summarizer := "gemini";
       flag_config := "config.json"; flag_env := ".env"; flag_debug := false |}
    choices0
  = Some (Fatal "Summarizer provider not found or not enabled", [QueryEv "openai" "hi"]).
Proof.
  apply (main_unknown_summarizer ToUpperASCII world_no_key
           {| flag_prompt := "hi"; flag_summarizer := "gemini";
              flag_config := "config.json"; flag_env := ".env"; flag_debug := false |}
           choices0 cfg_openai ∅).
  - reflexivity.
  - discriminate.
  - reflexivity.
  - reflexivity.
  - reflexivity.
  - discriminate.
  - reflexivity.
Defined.

(** X17.  What [main] never does: whatever it is given, a run that ends
    makes no call, or one call, or two calls of [Query], all to
    ["openai"] and the first with the prompt; it never ends with ["No
    providers returned an answer"] nor with ["Summarizer failed"], the
    one provider of the registry being unable to fail; and it prints a
    verdict exactly when it made two calls. *)
Theorem main_never ToUpper w f ch out t :
  main ToUpper w f ch = Some (out, t) →
  (t = [] ∨ t = [QueryEv "openai" (flag_prompt f)] ∨
   ∃ synthesized, t = [QueryEv "openai" (flag_prompt f); QueryEv "openai" synthesized]) ∧
  out ≠ Fatal "No providers returned an answer" ∧
  out ≠ Fatal "Summarizer failed" ∧
  ((∃ stdout, out = Printed stdout) ↔ length t = 2).
Proof.
  rewrite main_cases. intros Hm.
  repeat match type of Hm with
         | context [match ?x with _ => _ end] => destruct x
         end;
    try discriminate; injection Hm as <- <-;
    (split_and!; [eauto|done|done|]); (split; [by intros [? ?]|]);
    try done; eauto.
Qed.

Lemma main_never_witness :
  (([QueryEv "openai" "hi"] : list Event) = [] ∨
   [QueryEv "openai" "hi"] = [QueryEv "openai" (flag_prompt flags_hi)] ∨
   ∃ synthesized,
     [QueryEv "openai" "hi"]
     = [QueryEv "openai" (flag_prompt flags_hi); QueryEv "openai" synthesized]) ∧
  Fatal "Summarizer provider not found or not enabled"
    ≠ Fatal "No providers returned an answer" ∧
  Fatal "Summarizer provider not found or not enabled" ≠ Fatal "Summarizer failed" ∧
  ((∃ stdout, Fatal "Summarizer provider not found or not enabled" = Printed stdout)
   ↔ length [QueryEv "openai" "hi"] = 2).
Proof.
  apply (main_never ToUpperASCII world_no_key
           {| flag_prompt := "hi"; flag_summarizer := "gemini";
              flag_config := "config.json"; flag_env := ".env"; flag_debug := false |}
           choices0).
  vm_compute. reflexivity.
Defined.

(** X18.  What Go leaves open does not show: two runs of [main] on the
    same flags and the same world that both end, end alike, with the same
    outcome and the same calls in the same order, whatever the order in
    which the configuration is ranged over, the interleaving of the
    goroutines and the order in which the answers are ranged over. *)
Theorem main_deterministic ToUpper w f ch1 ch2 run1 run2 :
  main ToUpper w f ch1 = Some run1 →
  main ToUpper w f ch2 = Some run2 →
  run1 = run2.
Proof.
  rewrite !main_cases. intros H1 H2.
  repeat match type of H1 with
         | context [match ?x with _ => _ end] => destruct x
         end;
    repeat match type of H2 with
           | context [match ?x with _ => _ end] => destruct x
           end;
    congruence.
Qed.

Lemma main_deterministic_witness :
  (Printed ["----- Final Verdict -----";
            "OpenAI answer to: " +:+ header +:+ "[openai]: OpenAI answer to: hi" +:+ nl],
   [QueryEv "openai" "hi";
    QueryEv "openai" (header +:+ "[openai]: OpenAI answer to: hi" +:+ nl)])
  = (Printed ["----- Final Verdict -----";
              "OpenAI answer to: " +:+ header +:+ "[openai]: OpenAI answer to: hi" +:+ nl],
     [QueryEv "openai" "hi";
      QueryEv "openai" (header +:+ "[openai]: OpenAI answer to: hi" +:+ nl)]).
Proof.
  apply (main_deterministic ToUpperASCII world_no_key flags_hi choices0
           {| names_seed := 3; schedule := [0; 5; 0; 0]; answers_seed := 7 |}).
  - vm_compute. reflexivity.
  - vm_compute. reflexivity.
Defined.
